(** * TinyText: selection addressing and snapshot history

    A shallow embedding of the core of the TinyText editor
    ([SelectionManager], [HistoryManager], the undo and redo commands of
    [registerBuiltinCommands], [CommandManager.exec] and the change handler
    of [TinyTextEditor]) together with the properties its specification
    states about them.

    Conventions.
    - A JS array used as a stack is a [list] whose LAST element is the top:
      [push x] is [l ++ [x]], [pop] removes the last element, [shift] the
      first.
    - JS numbers that hold integers are [Z]; array lengths are [nat].
    - [Date.now()] is an explicit argument [now] of every operation that
      reads the clock.
    - The host's timer queue ([setTimeout]/[clearTimeout]) is an explicit
      table from handles to pending callbacks. *)

From stdpp Require Import gmap strings list.
From Stdlib Require Import ZArith Lia.

(** ** Shared data ([src/core/types.ts]) *)

Record SerializedSelection := mkSerializedSelection {
  anchorPath : list Z;
  anchorOffset : Z;
  focusPath : list Z;
  focusOffset : Z
}.

Record HistorySnapshot := mkSnapshot {
  html : string;
  selection : option SerializedSelection;
  timestamp : Z
}.

(** ** HistoryManager *)

Module History.

Definition DEFAULT_MAX_SIZE : Z := 200.
Definition DEBOUNCE_MS : Z := 300.

(** A callback armed by [setTimeout(doPush, DEBOUNCE_MS)]: the closure
    [doPush] captures the [html] and [selection] arguments of the [push]
    call that created it; [due] is the earliest time at which the host may
    run it. *)
Record Timeout := mkTimeout {
  due : Z;
  cb_html : string;
  cb_selection : option SerializedSelection
}.

(** The fields of the class, followed by the part of the host that the
    class talks to: the table of armed timers and the next fresh handle.
    Handles are [positive]: the host never hands out [0], so the test
    [if (this.debounceTimer)] is a test against [null]. *)
Record HistoryManager := mkHistory {
  undoStack : list HistorySnapshot;
  redoStack : list HistorySnapshot;
  maxSize : Z;
  debounceTimer : option positive;
  locked : bool;
  timers : gmap positive Timeout;
  nextHandle : positive
}.

(** [new HistoryManager(maxSize)] *)
Definition new (maxSize : Z) : HistoryManager :=
  mkHistory [] [] maxSize None false ∅ 1%positive.

Definition set_undoStack (u : list HistorySnapshot) (s : HistoryManager) :=
  mkHistory u (redoStack s) (maxSize s) (debounceTimer s) (locked s)
            (timers s) (nextHandle s).
Definition set_redoStack (r : list HistorySnapshot) (s : HistoryManager) :=
  mkHistory (undoStack s) r (maxSize s) (debounceTimer s) (locked s)
            (timers s) (nextHandle s).
Definition set_debounceTimer (t : option positive) (s : HistoryManager) :=
  mkHistory (undoStack s) (redoStack s) (maxSize s) t (locked s)
            (timers s) (nextHandle s).
Definition set_locked (b : bool) (s : HistoryManager) :=
  mkHistory (undoStack s) (redoStack s) (maxSize s) (debounceTimer s) b
            (timers s) (nextHandle s).

(** Host: [clearTimeout(id)] forgets the callback (a no-op on a handle
    that already fired or was cleared). *)
Definition clearTimeout (id : positive) (s : HistoryManager) : HistoryManager :=
  mkHistory (undoStack s) (redoStack s) (maxSize s) (debounceTimer s)
            (locked s) (delete id (timers s)) (nextHandle s).

(** Host: [setTimeout(cb, ms)] registers the callback under a fresh handle
    and returns the handle. *)
Definition setTimeout (cb : Timeout) (s : HistoryManager)
  : positive * HistoryManager :=
  (nextHandle s,
   mkHistory (undoStack s) (redoStack s) (maxSize s) (debounceTimer s)
             (locked s) (<[nextHandle s := cb]> (timers s))
             (Pos.succ (nextHandle s))).

(** [if (this.undoStack.length > this.maxSize) this.undoStack.shift()] *)
Definition trim (maxSize : Z) (u : list HistorySnapshot) : list HistorySnapshot :=
  if bool_decide (Z.of_nat (length u) > maxSize)%Z then tail u else u.

(** The closure [doPush] of [push], run at time [now]. *)
Definition doPush (h : string) (sel : option SerializedSelection) (now : Z)
    (s : HistoryManager) : HistoryManager :=
  let commit :=
    set_undoStack (trim (maxSize s) (undoStack s ++ [mkSnapshot h sel now]))
                  (set_redoStack [] s) in
  match last (undoStack s) with
  | Some l => if bool_decide (html l = h) then s else commit
  | None => commit
  end.

(** [push(html, selection, immediate)] at time [now]. *)
Definition push (h : string) (sel : option SerializedSelection)
    (immediate : bool) (now : Z) (s : HistoryManager) : HistoryManager :=
  if locked s then s
  else if immediate then
    let s1 := match debounceTimer s with
              | Some id => set_debounceTimer None (clearTimeout id s)
              | None => s
              end in
    doPush h sel now s1
  else
    let s1 := match debounceTimer s with
              | Some id => clearTimeout id s
              | None => s
              end in
    let '(id, s2) := setTimeout (mkTimeout (now + DEBOUNCE_MS) h sel) s1 in
    set_debounceTimer (Some id) s2.

(** Host: the timer with handle [id] fires at time [now]. Nothing happens
    when no such timer is armed or when it is not due yet. *)
Definition fireTimer (id : positive) (now : Z) (s : HistoryManager)
  : HistoryManager :=
  match timers s !! id with
  | Some t =>
      if bool_decide (due t ≤ now)%Z
      then doPush (cb_html t) (cb_selection t) now (clearTimeout id s)
      else s
  | None => s
  end.

(** The debounce settles: the timer the manager last armed, if any, fires. *)
Definition settle (now : Z) (s : HistoryManager) : HistoryManager :=
  match debounceTimer s with
  | Some id => fireTimer id now s
  | None => s
  end.

(** [undo(currentHtml, currentSelection)] at time [now]. *)
Definition undo (currentHtml : string)
    (currentSelection : option SerializedSelection) (now : Z)
    (s : HistoryManager) : option HistorySnapshot * HistoryManager :=
  match undoStack s with
  | [] => (None, s)
  | _ =>
      let s1 := set_redoStack
                  (redoStack s ++ [mkSnapshot currentHtml currentSelection now]) s in
      (last (undoStack s1), set_undoStack (removelast (undoStack s1)) s1)
  end.

(** [redo(currentHtml, currentSelection)] at time [now]. *)
Definition redo (currentHtml : string)
    (currentSelection : option SerializedSelection) (now : Z)
    (s : HistoryManager) : option HistorySnapshot * HistoryManager :=
  match redoStack s with
  | [] => (None, s)
  | _ =>
      let s1 := set_undoStack
                  (undoStack s ++ [mkSnapshot currentHtml currentSelection now]) s in
      (last (redoStack s1), set_redoStack (removelast (redoStack s1)) s1)
  end.

Definition canUndo (s : HistoryManager) : bool :=
  bool_decide (0 < length (undoStack s)).
Definition canRedo (s : HistoryManager) : bool :=
  bool_decide (0 < length (redoStack s)).

Definition clear (s : HistoryManager) : HistoryManager :=
  let s1 := set_redoStack [] (set_undoStack [] s) in
  match debounceTimer s1 with
  | Some id => set_debounceTimer None (clearTimeout id s1)
  | None => s1
  end.

Definition lock (s : HistoryManager) : HistoryManager := set_locked true s.
Definition unlock (s : HistoryManager) : HistoryManager := set_locked false s.

Definition getUndoCount (s : HistoryManager) : nat := length (undoStack s).
Definition getRedoCount (s : HistoryManager) : nat := length (redoStack s).

(** Everything that can happen to a manager: the calls of its public
    interface and the host running an armed timer. *)
Inductive op :=
| OpPush (h : string) (sel : option SerializedSelection) (immediate : bool) (now : Z)
| OpUndo (h : string) (sel : option SerializedSelection) (now : Z)
| OpRedo (h : string) (sel : option SerializedSelection) (now : Z)
| OpClear
| OpLock
| OpUnlock
| OpFire (id : positive) (now : Z).

Definition step (s : HistoryManager) (o : op) : HistoryManager :=
  match o with
  | OpPush h sel imm now => push h sel imm now s
  | OpUndo h sel now => (undo h sel now s).2
  | OpRedo h sel now => (redo h sel now s).2
  | OpClear => clear s
  | OpLock => lock s
  | OpUnlock => unlock s
  | OpFire id now => fireTimer id now s
  end.

Definition run (ops : list op) (s : HistoryManager) : HistoryManager :=
  foldl step s ops.

(** A push that is known to reach the commit logic: synchronously when
    [immediate], otherwise once the debounce delay has elapsed with no
    other call in between. *)
Record pushArgs := mkPush {
  p_html : string;
  p_selection : option SerializedSelection;
  p_immediate : bool;
  p_now : Z
}.

(** The time at which such a push runs [doPush]. *)
Definition commitTime (p : pushArgs) : Z :=
  if p_immediate p then p_now p else (p_now p + DEBOUNCE_MS)%Z.

Definition pushSettled (s : HistoryManager) (p : pushArgs) : HistoryManager :=
  let s1 := push (p_html p) (p_selection p) (p_immediate p) (p_now p) s in
  if p_immediate p then s1 else settle (commitTime p) s1.

Definition pushAll (ps : list pushArgs) (s : HistoryManager) : HistoryManager :=
  foldl pushSettled s ps.

(** A manager of capacity 3 after the contents A, B, C were committed, and
    a selection to store with a snapshot. *)
Definition threeDeep : HistoryManager :=
  pushAll [mkPush "A" None true 1; mkPush "B" None false 2;
           mkPush "C" None true 400] (new 3).

Definition caretInThirdParagraph : SerializedSelection :=
  mkSerializedSelection [2; 0]%Z 2 [2; 0]%Z 2.

(** Two managers agree on everything the commit logic reads or writes. *)
Definition same_core (s0 s : HistoryManager) : Prop :=
  undoStack s0 = undoStack s ∧ redoStack s0 = redoStack s ∧
  maxSize s0 = maxSize s ∧ locked s0 = locked s.

(** The capacity bound that every operation maintains; [redo] pushes onto
    the undo stack without trimming, so the bound has to cover both
    stacks. *)
Definition bounded (s : HistoryManager) : Prop :=
  (Z.of_nat (length (undoStack s) + length (redoStack s)) ≤ maxSize s)%Z.

End History.

(** ** The document tree

    The browser's DOM as far as the selection code reads it: a store of
    nodes with identity, each knowing its parent and its ordered children.
    A node that is not in the store has no parent and no children. *)

Module Dom.

Inductive NodeKind :=
| TextNode (data : string)
| ElementNode (tagName : string).

Record Node := mkNode {
  parentNode : option positive;
  childNodes : list positive;
  kind : NodeKind
}.

Abbreviation Document := (gmap positive Node).

Definition parentOf (d : Document) (n : positive) : option positive :=
  d !! n ≫= parentNode.

Definition childrenOf (d : Document) (n : positive) : list positive :=
  default [] (childNodes <$> d !! n).

(** [Array.prototype.indexOf]: the first index holding [x], or [-1]. *)
Definition indexOf (l : list positive) (x : positive) : Z :=
  match list_find (λ y, y = x) l with
  | Some (i, _) => Z.of_nat i
  | None => (-1)%Z
  end.

(** [l[i]] for an integer [i]: [undefined] (here [None]) out of range. *)
Definition at_index {A} (l : list A) (i : Z) : option A :=
  if bool_decide (0 ≤ i)%Z then l !! Z.to_nat i else None.

(** The length of a node (DOM Standard): the number of code units of a
    text node, the number of children of an element. *)
Definition nodeLength (d : Document) (n : positive) : Z :=
  match d !! n with
  | Some (mkNode _ _ (TextNode data)) => Z.of_nat (String.length data)
  | Some (mkNode _ cs (ElementNode _)) => Z.of_nat (length cs)
  | None => 0%Z
  end.

(** [parent.removeChild(child)]: the child leaves its parent's list and
    loses its parent; its own subtree stays attached to it. (This is the
    update of the tree only; the browser also moves live ranges that lie
    inside the removed subtree.) *)
Definition removeChild (parent child : positive) (d : Document) : Document :=
  match d !! parent, d !! child with
  | Some p, Some c =>
      if bool_decide (parentNode c = Some parent) then
        <[child := mkNode None (childNodes c) (kind c)]>
          (<[parent := mkNode (parentNode p)
                              (filter (λ x, x ≠ child) (childNodes p))
                              (kind p)]> d)
      else d
  | _, _ => d
  end.

(** [n] lies [k] levels below [root]: following [parentNode] from [n]
    reaches [root] for the first time after [k] steps. *)
Inductive under (d : Document) (root : positive) : positive → nat → Prop :=
| under_root : under d root root 0
| under_step n p k :
    n ≠ root → parentOf d n = Some p → under d root p k →
    under d root n (S k).

(** The invariant of the DOM that links the two directions of the tree: a
    node is among the children of its parent. *)
Definition parent_child (d : Document) : Prop :=
  ∀ n p, parentOf d n = Some p → n ∈ childrenOf d p.

End Dom.

(** ** SelectionManager *)

Module Selection.
Import Dom.

(** A live [Range] of the page. *)
Record Range := mkRange {
  startContainer : positive;
  startOffset : Z;
  endContainer : positive;
  endOffset : Z
}.

(** What [window.getSelection()] returns: [None] for [null], otherwise the
    ranges of the selection. *)
Abbreviation Window := (option (list Range)).

(** The loop of [getNodePath]. The document is finite and a tree, so the
    walk towards the root takes at most as many steps as there are nodes;
    [fuel] is that bound (a store with a parent cycle, which no DOM has,
    exhausts it and yields [None]). *)
Fixpoint getNodePath_loop (fuel : nat) (d : Document) (root current : positive)
    (path : list Z) : option (list Z) :=
  match fuel with
  | O => None
  | S fuel' =>
      if decide (current = root) then Some path
      else match parentOf d current with
           | None => None
           | Some parent =>
               let index := indexOf (childrenOf d parent) current in
               getNodePath_loop fuel' d root parent (index :: path)
           end
  end.

Definition getNodePath (d : Document) (root node : positive) : option (list Z) :=
  getNodePath_loop (S (size d)) d root node [].

(** The loop of [getNodeFromPath], started at [node]. *)
Fixpoint getNodeFromPath_from (d : Document) (node : positive) (path : list Z)
  : option positive :=
  match path with
  | [] => Some node
  | index :: rest =>
      match at_index (childrenOf d node) index with
      | None => None
      | Some child => getNodeFromPath_from d child rest
      end
  end.

Definition getNodeFromPath (d : Document) (root : positive) (path : list Z)
  : option positive :=
  getNodeFromPath_from d root path.

Definition serialize (d : Document) (root : positive) (w : Window)
  : option SerializedSelection :=
  match w with
  | None | Some [] => None
  | Some (range :: _) =>
      match getNodePath d root (startContainer range),
            getNodePath d root (endContainer range) with
      | Some anchorPath, Some focusPath =>
          Some (mkSerializedSelection anchorPath (startOffset range)
                                      focusPath (endOffset range))
      | _, _ => None
      end
  end.

(** *** The platform's [Range] interface (DOM Standard)

    An offset argument is an [unsigned long]; [setStart] and [setEnd] throw
    [IndexSizeError] when it exceeds the length of the node. [setEnd] on a
    range whose start lies after the new end moves the start to the new
    end. *)

Definition toUint32 (z : Z) : Z := (z mod 4294967296)%Z.

(** Is the boundary point [(pa, oa)] before [(pb, ob)] in tree order? The
    nodes are given by their paths from a common ancestor. *)
Fixpoint bp_before (pa : list Z) (oa : Z) (pb : list Z) (ob : Z) : bool :=
  match pa, pb with
  | [], [] => bool_decide (oa < ob)%Z
  | [], j :: _ => bool_decide (oa ≤ j)%Z
  | i :: _, [] => bool_decide (i < ob)%Z
  | i :: pa', j :: pb' =>
      if bool_decide (i = j) then bp_before pa' oa pb' ob
      else bool_decide (i < j)%Z
  end.

Definition before (d : Document) (root : positive)
    (a : positive) (oa : Z) (b : positive) (ob : Z) : bool :=
  match getNodePath d root a, getNodePath d root b with
  | Some pa, Some pb => bp_before pa oa pb ob
  | _, _ => false
  end.

(** [r = document.createRange(); r.setStart(a, oa); r.setEnd(f, fo)]:
    [None] when one of the two calls throws. *)
Definition rangeBetween (d : Document) (root : positive)
    (a : positive) (oa : Z) (f : positive) (fo : Z) : option Range :=
  let oa' := toUint32 oa in
  let fo' := toUint32 fo in
  if bool_decide (oa' ≤ nodeLength d a)%Z then
    if bool_decide (fo' ≤ nodeLength d f)%Z then
      if before d root f fo' a oa'
      then Some (mkRange f fo' f fo')
      else Some (mkRange a oa' f fo')
    else None
  else None.

(** [deserialize(serialized)]: the selection of the page afterwards. The
    [try]/[catch] of the source turns an exception of [setStart]/[setEnd]
    into a silent return. *)
Definition deserialize (d : Document) (root : positive) (w : Window)
    (serialized : SerializedSelection) : Window :=
  match getNodeFromPath d root (anchorPath serialized),
        getNodeFromPath d root (focusPath serialized) with
  | Some anchorNode, Some focusNode =>
      match rangeBetween d root anchorNode (anchorOffset serialized)
                         focusNode (focusOffset serialized) with
      | Some range =>
          match w with
          | Some _ => Some [range]
          | None => None
          end
      | None => w
      end
  | _, _ => w
  end.

End Selection.

(** ** The editor: change handler and undo/redo commands *)

Module Editor.
Import Dom Selection.

(** The state of the page that the editor shares with the browser. *)
Record Page := mkPage {
  document : Document;
  window : Window
}.

(** What the editor does to the outside, in the order it happens. *)
Inductive Effect :=
| UpdateStatusBar
| UpdatePlaceholder
| Emit (event : string) (payload : list string)
| OnChange (html text : string)
| ToolbarRefresh
| ConsoleError (command err : string).

Record TinyTextEditor := mkEditor {
  page : Page;
  editable : positive;
  history : History.HistoryManager;
  _destroyed : bool;
  maxLength : Z;
  effects : list Effect
}.

Definition set_page (pg : Page) (e : TinyTextEditor) :=
  mkEditor pg (editable e) (history e) (_destroyed e) (maxLength e) (effects e).
Definition set_history (h : History.HistoryManager) (e : TinyTextEditor) :=
  mkEditor (page e) (editable e) h (_destroyed e) (maxLength e) (effects e).
Definition perform (f : Effect) (e : TinyTextEditor) :=
  mkEditor (page e) (editable e) (history e) (_destroyed e) (maxLength e)
           (effects e ++ [f]).

(** How the body of a JS function was left. *)
Inductive Completion :=
| Normal
| Throw (err : string).

Section Platform.

(** The browser's [innerHTML] getter and setter and its [innerText]
    getter on the editable element. The setter parses markup and replaces
    the children of the element; it returns the error when it throws. *)
Variable innerHTML : Document → positive → string.
Variable innerText : Document → positive → string.
Variable setInnerHTML : string → Page → positive → string + Page.

(** [this.selection.serialize()] *)
Definition captureSelection (e : TinyTextEditor) : option SerializedSelection :=
  serialize (document (page e)) (editable e) (window (page e)).

(** [_onContentChange()], run at time [now]. *)
Definition _onContentChange (now : Z) (e : TinyTextEditor) : TinyTextEditor :=
  if _destroyed e then e
  else if bool_decide (maxLength e > 0)%Z
          && bool_decide
               (Z.of_nat (String.length (innerText (document (page e)) (editable e)))
                > maxLength e)%Z
  then e
  else
    let html := innerHTML (document (page e)) (editable e) in
    let text := innerText (document (page e)) (editable e) in
    let e1 := perform UpdateStatusBar e in
    let e2 := perform UpdatePlaceholder e1 in
    let e3 := set_history
                (History.push html (captureSelection e2) false now (history e2)) e2 in
    let e4 := perform (Emit "change" [html; text]) e3 in
    let e5 := perform (OnChange html text) e4 in
    perform ToolbarRefresh e5.

(** The part of the undo and redo commands after the snapshot was obtained:
    [history.lock(); editable.innerHTML = snapshot.html;
     if (snapshot.selection) selection.deserialize(snapshot.selection);
     history.unlock(); editor.emit(event, {})]. *)
Definition replay (event : string) (snapshot : HistorySnapshot)
    (e : TinyTextEditor) : Completion * TinyTextEditor :=
  let e1 := set_history (History.lock (history e)) e in
  match setInnerHTML (html snapshot) (page e1) (editable e1) with
  | inl err => (Throw err, e1)
  | inr pg =>
      let e2 := set_page pg e1 in
      let e3 := match selection snapshot with
                | Some sel =>
                    set_page (mkPage (document (page e2))
                                     (deserialize (document (page e2)) (editable e2)
                                                  (window (page e2)) sel)) e2
                | None => e2
                end in
      let e4 := set_history (History.unlock (history e3)) e3 in
      (Normal, perform (Emit event []) e4)
  end.

(** [execute] of the command ['undo'], run at time [now]. *)
Definition undoExecute (now : Z) (e : TinyTextEditor)
  : Completion * TinyTextEditor :=
  let '(snapshot, h) :=
    History.undo (innerHTML (document (page e)) (editable e))
                 (captureSelection e) now (history e) in
  let e0 := set_history h e in
  match snapshot with
  | None => (Normal, e0)
  | Some snapshot => replay "history:undo" snapshot e0
  end.

(** [execute] of the command ['redo'], run at time [now]. *)
Definition redoExecute (now : Z) (e : TinyTextEditor)
  : Completion * TinyTextEditor :=
  let '(snapshot, h) :=
    History.redo (innerHTML (document (page e)) (editable e))
                 (captureSelection e) now (history e) in
  let e0 := set_history h e in
  match snapshot with
  | None => (Normal, e0)
  | Some snapshot => replay "history:redo" snapshot e0
  end.

(** [CommandManager.exec(id)] for a registered command: skipped when the
    command is disabled; an exception of [execute] is caught and logged. *)
Definition exec (id : string) (isEnabled : TinyTextEditor → bool)
    (execute : TinyTextEditor → Completion * TinyTextEditor)
    (e : TinyTextEditor) : TinyTextEditor :=
  if isEnabled e then
    match execute e with
    | (Normal, e') => e'
    | (Throw err, e') => perform (ConsoleError id err) e'
    end
  else e.

(** [editor.undo()] and [editor.redo()]. *)
Definition undo (now : Z) (e : TinyTextEditor) : TinyTextEditor :=
  exec "undo" (λ e, History.canUndo (history e)) (undoExecute now) e.
Definition redo (now : Z) (e : TinyTextEditor) : TinyTextEditor :=
  exec "redo" (λ e, History.canRedo (history e)) (redoExecute now) e.

(** The content assignment returns, whatever markup it is given. *)
Definition assigns (pg : Page) (n : positive) : Prop :=
  ∀ markup, ∃ pg', setInnerHTML markup pg n = inr pg'.

End Platform.

End Editor.

(** ** A document of five paragraphs

    The editable root [1] holds the paragraphs [2] to [6]; paragraph [i]
    holds one text node, [i + 5], with the given text. *)

Module Scenario.
Import Dom Selection.

Definition paragraphs (t1 t2 t3 t4 t5 : string) : Document :=
  list_to_map
    [ (1%positive, mkNode None [2; 3; 4; 5; 6]%positive (ElementNode "DIV"));
      (2%positive, mkNode (Some 1%positive) [7%positive] (ElementNode "P"));
      (3%positive, mkNode (Some 1%positive) [8%positive] (ElementNode "P"));
      (4%positive, mkNode (Some 1%positive) [9%positive] (ElementNode "P"));
      (5%positive, mkNode (Some 1%positive) [10%positive] (ElementNode "P"));
      (6%positive, mkNode (Some 1%positive) [11%positive] (ElementNode "P"));
      (7%positive, mkNode (Some 2%positive) [] (TextNode t1));
      (8%positive, mkNode (Some 3%positive) [] (TextNode t2));
      (9%positive, mkNode (Some 4%positive) [] (TextNode t3));
      (10%positive, mkNode (Some 5%positive) [] (TextNode t4));
      (11%positive, mkNode (Some 6%positive) [] (TextNode t5)) ].

Definition root : positive := 1.
Definition firstParagraph : positive := 2.
Definition thirdText : positive := 9.
Definition fourthText : positive := 10.

(** A caret at [offset] inside a text node. *)
Definition caret (node : positive) (offset : Z) : Window :=
  Some [mkRange node offset node offset].

Definition fiveWords : Document := paragraphs "one" "two" "three" "four" "five".

(** The parent/child invariant as a check that runs on a given store. *)
Definition parent_child_check (d : Document) : bool :=
  forallb (λ '(n, nd), match parentNode nd with
                       | Some p => bool_decide (n ∈ childrenOf d p)
                       | None => true
                       end)
          (map_to_list d).

(** Stand-ins for the browser's getters on such a document: the text of
    the paragraphs, and the same with paragraph tags. *)
Definition textOf (d : Document) (n : positive) : string :=
  match d !! n with
  | Some (mkNode _ _ (TextNode data)) => data
  | _ => ""
  end.

Definition plainText (d : Document) (n : positive) : string :=
  String.concat "" (c ← childrenOf d n; textOf d <$> childrenOf d c).

Definition markup (d : Document) (n : positive) : string :=
  String.concat ""
    ((λ c, "<p>" +:+ String.concat "" (textOf d <$> childrenOf d c) +:+ "</p>")
       <$> childrenOf d n).

(** Two setters: one that throws whatever it is given, and one that
    always returns, leaving an element with no children and the caret at
    its start. *)
Definition throwingSetter (_ : string) (_ : Editor.Page) (_ : positive)
  : string + Editor.Page :=
  inl "TypeError".

Definition clearingSetter (_ : string) (pg : Editor.Page) (n : positive)
  : string + Editor.Page :=
  inr (Editor.mkPage
         (alter (λ nd, mkNode (parentNode nd) [] (kind nd)) n (Editor.document pg))
         (match Editor.window pg with
          | Some _ => caret n 0
          | None => None
          end)).

(** An editor on the five paragraphs with three committed snapshots, the
    caret in the third paragraph, and a limit of ten characters. *)
Definition demoEditor : Editor.TinyTextEditor :=
  Editor.mkEditor (Editor.mkPage fiveWords (caret thirdText 2)) root
                  History.threeDeep false 10 [].

End Scenario.

(** ** Drivers for the history: bursts of debounced pushes, repeated undo *)

Module HistoryRuns.
Import History.

(** [push(html, selection)] with [immediate] left at its default. *)
Definition pushDebounced (s : HistoryManager) (p : pushArgs) : HistoryManager :=
  push (p_html p) (p_selection p) false (p_now p) s.

(** A burst: debounced pushes one after the other, no timer firing in
    between. *)
Definition burst (ps : list pushArgs) (s : HistoryManager) : HistoryManager :=
  foldl pushDebounced s ps.

(** The states a manager created by [new HistoryManager(maxSize)] can get
    into. *)
Definition reachable (s : HistoryManager) : Prop :=
  ∃ N ops, s = run ops (new N).

(** Every armed timer is the one whose handle the manager holds. *)
Definition one_timer (s : HistoryManager) : Prop :=
  ∀ id, is_Some (timers s !! id) → debounceTimer s = Some id.

(** Handles in use are below the next fresh handle. *)
Definition handles_fresh (s : HistoryManager) : Prop :=
  ∀ id, debounceTimer s = Some id → (id < nextHandle s)%positive.

(** The current state of the document that the caller passes to [undo]. *)
Record Current := mkCurrent {
  c_html : string;
  c_selection : option SerializedSelection;
  c_now : Z
}.

Definition snapshotOf (c : Current) : HistorySnapshot :=
  mkSnapshot (c_html c) (c_selection c) (c_now c).

(** The caller undoes once for every element of [curs], stopping when
    [undo] returns [null]; the snapshots returned, in order. *)
Fixpoint undoMany (curs : list Current) (s : HistoryManager)
  : list HistorySnapshot * HistoryManager :=
  match curs with
  | [] => ([], s)
  | c :: rest =>
      match undo (c_html c) (c_selection c) (c_now c) s with
      | (Some snapshot, s') =>
          let '(snapshots, s'') := undoMany rest s' in
          (snapshot :: snapshots, s'')
      | (None, s') => ([], s')
      end
  end.

End HistoryRuns.

(** ** Well-formed document trees and valid ranges *)

Module Tree.
Import Dom Selection.

(** The other half of the link between parents and children: whoever is
    in a node's list of children has that node as its parent. *)
Definition child_parent (d : Document) : Prop :=
  ∀ p c, c ∈ childrenOf d p → parentOf d c = Some p.

(** A node occurs once among the children of its parent. *)
Definition children_nodup (d : Document) : Prop :=
  ∀ p, NoDup (childrenOf d p).

(** The document has no cycle: some measure of depth grows from every
    node to its children. *)
Definition ranked (depth : positive → nat) (d : Document) : Prop :=
  ∀ p c, c ∈ childrenOf d p → depth p < depth c.

(** The three conditions as a check that runs on a given store. *)
Definition tree_check (depth : positive → nat) (d : Document) : bool :=
  forallb (λ '(p, nd),
             bool_decide (NoDup (childNodes nd))
             && forallb (λ c, bool_decide (parentOf d c = Some p)
                              && bool_decide (depth p < depth c))
                        (childNodes nd))
          (map_to_list d).

(** A depth measure for the document of five paragraphs: the root, the
    paragraphs, the texts. *)
Definition levelOf (n : positive) : nat :=
  if bool_decide (n = 1)%positive then 0
  else if bool_decide (n ≤ 6)%positive then 1 else 2.

(** What the browser guarantees of a live range whose end points lie under
    [root]: the offsets are within the nodes (and are [unsigned long]
    values), and the end is not before the start. *)
Definition valid_range (d : Document) (root : positive) (r : Range) : Prop :=
  (0 ≤ startOffset r ≤ nodeLength d (startContainer r))%Z
  ∧ (0 ≤ endOffset r ≤ nodeLength d (endContainer r))%Z
  ∧ (startOffset r < 4294967296)%Z ∧ (endOffset r < 4294967296)%Z
  ∧ before d root (endContainer r) (endOffset r)
           (startContainer r) (startOffset r) = false.

End Tree.

(** ** EventBus

    Handlers are functions; the bus compares them by identity and calls
    them. A handler is represented by its identity, a number; what a call
    does outside the bus is recorded as the fact that the call took
    place, and [throws] tells whether it ends in an exception. Handlers
    are taken not to call back into the bus while it delivers an event. *)

Module Bus.

(** An entry object [{ handler, once }]; [entryId] is the identity of the
    object, which [indexOf] compares. *)
Record ListenerEntry := mkEntry {
  entryId : nat;
  handler : nat;
  once : bool
}.

(** The two fields of the class; wildcard entries always have
    [once: false], so only their handlers are kept. [nextEntry] is the
    identity of the next entry object to be created. *)
Record EventBus := mkBus {
  listeners : gmap string (list ListenerEntry);
  wildcardListeners : list nat;
  nextEntry : nat
}.

Definition new : EventBus := mkBus ∅ [] 0.

(** What becomes visible outside the bus. *)
Inductive Trace :=
| Called (handler : nat) (payload : string)
| CalledWildcard (handler : nat) (event payload : string)
| ErrorLogged (event : string)
| WildcardErrorLogged.

(** [_addListener(event, handler, once)] *)
Definition _addListener (event : string) (h : nat) (o : bool) (b : EventBus)
  : EventBus :=
  let entries := default [] (listeners b !! event) in
  mkBus (<[event := entries ++ [mkEntry (nextEntry b) h o]]> (listeners b))
        (wildcardListeners b) (S (nextEntry b)).

Definition on (event : string) (h : nat) (b : EventBus) : EventBus :=
  _addListener event h false b.

Definition once_ (event : string) (h : nat) (b : EventBus) : EventBus :=
  _addListener event h true b.

Definition onAny (h : nat) (b : EventBus) : EventBus :=
  mkBus (listeners b) (wildcardListeners b ++ [h]) (nextEntry b).

(** [idx = entries.findIndex(p); if (idx !== -1) entries.splice(idx, 1)] *)
Definition spliceFirst (p : ListenerEntry → bool) (entries : list ListenerEntry)
  : list ListenerEntry :=
  match list_find (λ e, p e = true) entries with
  | Some (idx, _) => delete idx entries
  | None => entries
  end.

Definition off (event : string) (h : nat) (b : EventBus) : EventBus :=
  match listeners b !! event with
  | None => b
  | Some entries =>
      let entries' := spliceFirst (λ e, bool_decide (handler e = h)) entries in
      mkBus (match entries' with
             | [] => delete event (listeners b)
             | _ => <[event := entries']> (listeners b)
             end)
            (wildcardListeners b) (nextEntry b)
  end.

(** [offAll(event?)]: the test [if (event)] is false for a missing
    argument and for the empty string. *)
Definition offAll (event : option string) (b : EventBus) : EventBus :=
  match event with
  | Some ev =>
      if bool_decide (ev = "") then mkBus ∅ [] (nextEntry b)
      else mkBus (delete ev (listeners b)) (wildcardListeners b) (nextEntry b)
  | None => mkBus ∅ [] (nextEntry b)
  end.

Definition listenerCount (event : string) (b : EventBus) : nat :=
  match listeners b !! event with
  | Some entries => length entries
  | None => 0
  end.

Section Handlers.

Variable throws : nat → string → bool.

(** The loop of [emit] over the snapshot: [entries] is the live array, from
    which an entry marked [once] is spliced after its call. *)
Fixpoint emitLoop (event payload : string) (snapshot entries : list ListenerEntry)
    (trace : list Trace) : list ListenerEntry * list Trace :=
  match snapshot with
  | [] => (entries, trace)
  | entry :: rest =>
      let trace1 := trace ++ [Called (handler entry) payload] in
      let trace2 := if throws (handler entry) payload
                    then trace1 ++ [ErrorLogged event] else trace1 in
      let entries' :=
        if once entry
        then spliceFirst (λ e, bool_decide (entryId e = entryId entry)) entries
        else entries in
      emitLoop event payload rest entries' trace2
  end.

Definition callWildcard (event payload : string) (h : nat) : list Trace :=
  CalledWildcard h event payload
  :: (if throws h payload then [WildcardErrorLogged] else []).

(** [emit(event, payload)] *)
Definition emit (event payload : string) (st : EventBus * list Trace)
  : EventBus * list Trace :=
  let '(b, trace) := st in
  let '(b1, trace1) :=
    match listeners b !! event with
    | Some entries =>
        let '(entries', trace') := emitLoop event payload entries entries trace in
        (mkBus (<[event := entries']> (listeners b)) (wildcardListeners b)
               (nextEntry b), trace')
    | None => (b, trace)
    end in
  (b1, trace1 ++ (wildcardListeners b1 ≫= callWildcard event payload)).

Definition callListener (event payload : string) (e : ListenerEntry) : list Trace :=
  Called (handler e) payload
  :: (if throws (handler e) payload then [ErrorLogged event] else []).

(** The calls a bus can receive. *)
Inductive op :=
| On (event : string) (h : nat)
| Once (event : string) (h : nat)
| OnAny (h : nat)
| Off (event : string) (h : nat)
| OffAll (event : option string)
| Emit (event payload : string).

Definition step (st : EventBus * list Trace) (o : op) : EventBus * list Trace :=
  match o with
  | On ev h => (on ev h st.1, st.2)
  | Once ev h => (once_ ev h st.1, st.2)
  | OnAny h => (onAny h st.1, st.2)
  | Off ev h => (off ev h st.1, st.2)
  | OffAll ev => (offAll ev st.1, st.2)
  | Emit ev payload => emit ev payload st
  end.

Definition run (ops : list op) : EventBus * list Trace :=
  foldl step (new, []) ops.

End Handlers.

(** The entries registered for an event, in the order of registration. *)
Definition entriesOf (event : string) (b : EventBus) : list ListenerEntry :=
  default [] (listeners b !! event).

(** Entry objects are distinct and were created by this bus. *)
Definition entries_distinct (b : EventBus) : Prop :=
  ∀ ev es, listeners b !! ev = Some es →
    NoDup (entryId <$> es) ∧ Forall (λ e, entryId e < nextEntry b) es.

End Bus.

(** ** Utilities ([utils/dom]): escaping, throttling, debouncing *)

Module Utils.
Import Stdlib.Strings.Ascii.

(** [s.replace(/c/g, r)] for a pattern that is one literal character and
    a replacement without [$]. *)
Fixpoint replaceAll (c : ascii) (r : string) (s : string) : string :=
  match s with
  | EmptyString => EmptyString
  | String x rest =>
      if Ascii.eqb x c then r +:+ replaceAll c r rest
      else String x (replaceAll c r rest)
  end.

Definition amp : ascii := "&"%char.
Definition lt : ascii := "<"%char.
Definition gt : ascii := ">"%char.
Definition quot : ascii := "034"%char.
Definition apos : ascii := "'"%char.

Definition escapeHTML (str : string) : string :=
  replaceAll apos "&#39;"
    (replaceAll quot "&quot;"
       (replaceAll gt "&gt;"
          (replaceAll lt "&lt;"
             (replaceAll amp "&amp;" str)))).

(** The entity that stands for one character. *)
Definition escapeChar (c : ascii) : string :=
  if Ascii.eqb c amp then "&amp;"
  else if Ascii.eqb c lt then "&lt;"
  else if Ascii.eqb c gt then "&gt;"
  else if Ascii.eqb c quot then "&quot;"
  else if Ascii.eqb c apos then "&#39;"
  else String c EmptyString.

(** Escaping character by character, in one pass. *)
Fixpoint escapeEach (s : string) : string :=
  match s with
  | EmptyString => EmptyString
  | String x rest => escapeChar x +:+ escapeEach rest
  end.

(** Does the character occur in the string? *)
Fixpoint occurs (c : ascii) (s : string) : bool :=
  match s with
  | EmptyString => false
  | String x rest => Ascii.eqb x c || occurs c rest
  end.

(** *** throttle

    The closure returned by [throttle(fn, ms)] keeps [lastCall], initially
    [0]. A call at time [now] runs [fn] with its arguments when
    [now - lastCall >= ms], and then sets [lastCall] to [now]. *)
Section Throttle.

Context {A : Type}.

Definition throttled (ms : Z) (now : Z) (args : A) (lastCall : Z)
  : (option (Z * A) * Z)%type :=
  if bool_decide (ms ≤ now - lastCall)%Z then (Some (now, args), now)
  else (None, lastCall).

(** The calls of [fn] caused by a sequence of calls of the closure. *)
Fixpoint throttledRun (ms : Z) (calls : list (Z * A)) (lastCall : Z)
  : list (Z * A) :=
  match calls with
  | [] => []
  | (now, args) :: rest =>
      match throttled ms now args lastCall with
      | (Some call, lastCall') => call :: throttledRun ms rest lastCall'
      | (None, lastCall') => throttledRun ms rest lastCall'
      end
  end.

(** Each time is at least [ms] after the one before it, starting from
    [from]. *)
Fixpoint spaced (ms : Z) (from : Z) (times : list Z) : Prop :=
  match times with
  | [] => True
  | t :: rest => (ms ≤ t - from)%Z ∧ spaced ms t rest
  end.

End Throttle.

(** *** debounce

    The closure returned by [debounce(fn, ms)] keeps [timer]. The host's
    table of armed timers holds, for each handle, the time the callback is
    due and the arguments it will pass to [fn]; [delivered] lists the
    calls of [fn] so far. *)
Section Debounce.

Context {A : Type}.

Record Debounced := mkDebounced {
  timer : option positive;
  pending : gmap positive (Z * A);
  fresh : positive;
  delivered : list A
}.


(** A call of the closure at time [now]:
    [clearTimeout(timer); timer = setTimeout(() => fn.apply(this, args), ms)]. *)
Definition call (ms : Z) (now : Z) (args : A) (s : Debounced) : Debounced :=
  let cleared := match timer s with
                 | Some id => delete id (pending s)
                 | None => pending s
                 end in
  mkDebounced (Some (fresh s)) (<[fresh s := ((now + ms)%Z, args)]> cleared)
              (Pos.succ (fresh s)) (delivered s).


Inductive event :=
| Call (now : Z) (args : A)
| Fire (id : positive) (now : Z).






End Debounce.

End Utils.

(** * Properties of the history *)

Module HistoryFacts.
Import History.

Lemma same_core_refl s : same_core s s.
Proof. by repeat split. Qed.

Lemma same_core_clearTimeout id s : same_core (clearTimeout id s) s.
Proof. by repeat split. Qed.

Lemma same_core_set_debounceTimer t s : same_core (set_debounceTimer t s) s.
Proof. by repeat split. Qed.

Lemma same_core_trans s1 s2 s3 :
  same_core s1 s2 → same_core s2 s3 → same_core s1 s3.
Proof.
  intros (?&?&?&?) (?&?&?&?). repeat split; congruence.
Qed.

(** [doPush] keeps the capacity and the lock. *)
Lemma doPush_maxSize h sel now s : maxSize (doPush h sel now s) = maxSize s.
Proof.
  unfold doPush. destruct (last (undoStack s)); [case_bool_decide|]; done.
Qed.

Lemma doPush_locked h sel now s : locked (doPush h sel now s) = locked s.
Proof.
  unfold doPush. destruct (last (undoStack s)); [case_bool_decide|]; done.
Qed.

(** The skip branch of [doPush]. *)
Lemma doPush_duplicate h sel now s top :
  last (undoStack s) = Some top → html top = h → doPush h sel now s = s.
Proof.
  intros Hl Hh. unfold doPush. rewrite Hl. by rewrite bool_decide_eq_true_2.
Qed.

(** The commit branch of [doPush]. *)
Lemma doPush_commit h sel now s :
  (∀ top, last (undoStack s) = Some top → html top ≠ h) →
  undoStack (doPush h sel now s)
    = trim (maxSize s) (undoStack s ++ [mkSnapshot h sel now])
  ∧ redoStack (doPush h sel now s) = [].
Proof.
  intros Hne. unfold doPush. destruct (last (undoStack s)) as [top|] eqn:Hl.
  - rewrite bool_decide_eq_false_2; [done|]. by apply Hne.
  - done.
Qed.

(** [doPush] reads nothing but the two stacks and the capacity. *)
Lemma doPush_same_core h sel now s0 s :
  same_core s0 s → same_core (doPush h sel now s0) (doPush h sel now s).
Proof.
  intros (Hu&Hr&Hm&Hk). unfold doPush. rewrite Hu.
  destruct (last (undoStack s)); [case_bool_decide|];
    repeat split; simpl; congruence.
Qed.

(** An accepted push that reaches the commit logic is [doPush] on the
    same stacks. *)
Lemma pushSettled_unlocked s p :
  locked s = false →
  same_core (pushSettled s p)
            (doPush (p_html p) (p_selection p) (commitTime p) s).
Proof.
  intros Hk. unfold pushSettled, push, commitTime. rewrite Hk.
  destruct (p_immediate p).
  - apply doPush_same_core. destruct (debounceTimer s); by repeat split.
  - unfold settle, setTimeout, fireTimer; simpl.
    rewrite lookup_insert_eq; simpl.
    rewrite bool_decide_eq_true_2 by lia.
    apply doPush_same_core. destruct (debounceTimer s); by repeat split.
Qed.

Lemma trim_length N (u : list HistorySnapshot) :
  1 ≤ length u → (Z.of_nat (length u) ≤ N + 1)%Z →
  (Z.of_nat (length (trim N u)) ≤ N)%Z.
Proof.
  intros H1 H. unfold trim. case_bool_decide.
  - rewrite length_tl. lia.
  - lia.
Qed.

Lemma doPush_bounded h sel now s : bounded s → bounded (doPush h sel now s).
Proof.
  unfold bounded, doPush. intros H.
  destruct (last (undoStack s)); [case_bool_decide|]; try done; simpl;
    rewrite Nat.add_0_r; apply trim_length; rewrite length_app; simpl; lia.
Qed.

Lemma bounded_same_core s0 s : same_core s0 s → bounded s → bounded s0.
Proof. intros (Hu&Hr&Hm&_). unfold bounded. by rewrite Hu, Hr, Hm. Qed.

Lemma push_bounded h sel imm now s : bounded s → bounded (push h sel imm now s).
Proof.
  intros H. unfold push. destruct (locked s); [done|]. destruct imm.
  - apply doPush_bounded. destruct (debounceTimer s); done.
  - destruct (debounceTimer s); done.
Qed.

Lemma fireTimer_bounded id now s : bounded s → bounded (fireTimer id now s).
Proof.
  intros H. unfold fireTimer. destruct (timers s !! id); [|done].
  case_bool_decide; [|done]. by apply doPush_bounded.
Qed.

Lemma length_removelast_nonempty {A} (l : list A) :
  l ≠ [] → S (length (removelast l)) = length l.
Proof.
  intros H. destruct (exists_last H) as (l'&x&->).
  rewrite removelast_last, length_app. simpl. lia.
Qed.

(** [undo] and [redo] on a stack that has something to give. *)
Lemma undo_nonempty h sel now s :
  undoStack s ≠ [] →
  undo h sel now s
  = (last (undoStack s),
     set_undoStack (removelast (undoStack s))
       (set_redoStack (redoStack s ++ [mkSnapshot h sel now]) s)).
Proof.
  unfold undo. intros H. destruct (undoStack s) eqn:E; [done|].
  simpl. by rewrite E.
Qed.

Lemma redo_nonempty h sel now s :
  redoStack s ≠ [] →
  redo h sel now s
  = (last (redoStack s),
     set_redoStack (removelast (redoStack s))
       (set_undoStack (undoStack s ++ [mkSnapshot h sel now]) s)).
Proof.
  unfold redo. intros H. destruct (redoStack s) eqn:E; [done|].
  simpl. by rewrite E.
Qed.

Lemma undo_empty h sel now s : undoStack s = [] → undo h sel now s = (None, s).
Proof. unfold undo. by intros ->. Qed.

Lemma redo_empty h sel now s : redoStack s = [] → redo h sel now s = (None, s).
Proof. unfold redo. by intros ->. Qed.

Lemma undo_bounded h sel now s : bounded s → bounded (undo h sel now s).2.
Proof.
  intros H. destruct (decide (undoStack s = [])) as [He|Hne].
  - by rewrite undo_empty.
  - rewrite undo_nonempty by done. unfold bounded in *. simpl.
    rewrite length_app. simpl.
    pose proof (length_removelast_nonempty _ Hne). lia.
Qed.

Lemma redo_bounded h sel now s : bounded s → bounded (redo h sel now s).2.
Proof.
  intros H. destruct (decide (redoStack s = [])) as [He|Hne].
  - by rewrite redo_empty.
  - rewrite redo_nonempty by done. unfold bounded in *. simpl.
    rewrite length_app. simpl.
    pose proof (length_removelast_nonempty _ Hne). lia.
Qed.

Lemma step_maxSize s o : maxSize (step s o) = maxSize s.
Proof.
  destruct o; simpl; try done.
  - unfold push. destruct (locked s); [done|]. destruct immediate.
    + rewrite doPush_maxSize. by destruct (debounceTimer s).
    + by destruct (debounceTimer s).
  - unfold undo. by destruct (undoStack s).
  - unfold redo. by destruct (redoStack s).
  - unfold clear. simpl. by destruct (debounceTimer s).
  - unfold fireTimer. destruct (timers s !! id); [|done].
    case_bool_decide; [|done]. by rewrite doPush_maxSize.
Qed.

Lemma step_bounded s o : (0 ≤ maxSize s)%Z → bounded s → bounded (step s o).
Proof.
  intros HN H. destruct o; simpl.
  - by apply push_bounded.
  - by apply undo_bounded.
  - by apply redo_bounded.
  - unfold clear, bounded. simpl. destruct (debounceTimer s); simpl; lia.
  - done.
  - done.
  - by apply fireTimer_bounded.
Qed.

Lemma run_bounded ops s :
  (0 ≤ maxSize s)%Z → bounded s →
  bounded (run ops s) ∧ maxSize (run ops s) = maxSize s.
Proof.
  unfold run. revert s. induction ops as [|o ops IH]; intros s HN H; [done|].
  simpl. destruct (IH (step s o)) as [IH1 IH2].
  - by rewrite step_maxSize.
  - by apply step_bounded.
  - split; [done|]. by rewrite IH2, step_maxSize.
Qed.

Lemma tail_drop {A} (l : list A) : tail l = drop 1 l.
Proof. by destruct l. Qed.

(** Pushing pairwise distinct contents into a fresh manager keeps the
    most recent [maxSize] of them, oldest first. *)
Lemma pushAll_distinct N ps :
  (0 ≤ N)%Z → NoDup (p_html <$> ps) →
  locked (pushAll ps (new N)) = false
  ∧ maxSize (pushAll ps (new N)) = N
  ∧ redoStack (pushAll ps (new N)) = []
  ∧ html <$> undoStack (pushAll ps (new N))
    = drop (length ps - Z.to_nat N) (p_html <$> ps).
Proof.
  intros HN. unfold pushAll.
  induction ps as [|p ps IH] using rev_ind; intros Hnd; [done|].
  rewrite fmap_app in Hnd. simpl in Hnd.
  apply NoDup_app in Hnd as (Hnd&Hfresh&_).
  destruct (IH Hnd) as (Hk&Hm&Hr&Hu). clear IH.
  rewrite foldl_snoc.
  set (f := foldl pushSettled (new N) ps) in *.
  destruct (pushSettled_unlocked f p Hk) as (Eu&Er&Em&Ek).
  assert (Hne : ∀ top, last (undoStack f) = Some top → html top ≠ p_html p).
  { intros top Hl Heq.
    assert (Hin : html top ∈ html <$> undoStack f).
    { apply list_elem_of_fmap. exists top. split; [done|].
      apply last_Some in Hl as (l'&->). set_solver. }
    rewrite Hu in Hin.
    assert (p_html p ∈ p_html <$> ps).
    { rewrite <- Heq. eapply subseteq_drop, Hin. }
    eapply Hfresh; [done|]. by constructor. }
  destruct (doPush_commit (p_html p) (p_selection p) (commitTime p) f Hne)
    as (Hcu&Hcr).
  rewrite doPush_locked in Ek. rewrite doPush_maxSize in Em.
  repeat split; [congruence|congruence|congruence|].
  rewrite Eu, Hcu, Hm. clear Eu Er Em Ek Hcu Hcr Hne Hfresh Hnd Hk Hm Hr.
  assert (Hlen : length (undoStack f) = length ps - (length ps - Z.to_nat N)).
  { rewrite <- (length_fmap html), Hu, length_drop, length_fmap. done. }
  rewrite length_app, fmap_app. simpl. unfold trim. rewrite length_app. simpl.
  case_bool_decide as Hc.
  - rewrite fmap_tail, fmap_app, Hu. simpl. rewrite tail_drop.
    replace (length ps + 1 - Z.to_nat N) with ((length ps - Z.to_nat N) + 1) by lia.
    rewrite <- drop_drop. f_equal.
    rewrite drop_app_le; [done|]. rewrite length_fmap. lia.
  - rewrite fmap_app, Hu. simpl.
    replace (length ps - Z.to_nat N) with 0 by lia.
    replace (length ps + 1 - Z.to_nat N) with 0 by lia. done.
Qed.

(** The worked example of capacity 3: A, B, C, D are pushed, then an undo
    with current content E, then a redo with current content D. *)
Example capacity_three_run :
  let s := pushAll [mkPush "A" None true 1; mkPush "B" None true 2;
                    mkPush "C" None true 3; mkPush "D" None true 4] (new 3) in
  let u := undo "E" None 5 s in
  let r := redo "D" None 6 u.2 in
  html <$> undoStack s = ["B"; "C"; "D"]
  ∧ html <$> u.1 = Some "D"
  ∧ html <$> undoStack u.2 = ["B"; "C"] ∧ html <$> redoStack u.2 = ["E"]
  ∧ html <$> r.1 = Some "E"
  ∧ html <$> undoStack r.2 = ["B"; "C"; "D"] ∧ redoStack r.2 = [].
Proof. repeat split. Qed.

(** C7. While the lock is set, [push] changes nothing for any content,
    selection and [immediate] flag: the manager after the call is the
    manager before it, so neither the undo stack nor the redo stack (nor a
    pending timer) is touched. *)
Theorem push_locked_no_effect s h sel immediate now :
  locked s = true →
  undoStack (push h sel immediate now s) = undoStack s
  ∧ redoStack (push h sel immediate now s) = redoStack s
  ∧ push h sel immediate now s = s.
Proof. intros Hk. unfold push. by rewrite Hk. Qed.

Lemma push_locked_no_effect_witness :
  let s := lock (push "<p>a</p>" None true 5 (new 3)) in
  locked s = true
  ∧ undoStack (push "<p>b</p>" None true 9 s) = undoStack s
  ∧ redoStack (push "<p>b</p>" None true 9 s) = redoStack s
  ∧ push "<p>b</p>" None true 9 s = s.
Proof.
  split; [reflexivity|].
  apply (push_locked_no_effect _ "<p>b</p>" None true 9). reflexivity.
Defined.

(** C6. [undo] followed at once by [redo], on a manager that has
    something to undo: the snapshot that [redo] returns carries exactly
    the content and the selection that were passed to [undo] as the
    current ones, whatever the depth of the stacks and whatever is passed
    to [redo]. The undo stack ends with the state passed to [redo] in
    place of the snapshot that [undo] returned, and the redo stack is as it
    was. *)
Theorem undo_then_redo_restores s c sel now c' sel' now' :
  undoStack s ≠ [] →
  let u := undo c sel now s in
  let r := redo c' sel' now' u.2 in
  u.1 = last (undoStack s)
  ∧ (∃ snap, r.1 = Some snap ∧ html snap = c ∧ selection snap = sel)
  ∧ undoStack r.2 = removelast (undoStack s) ++ [mkSnapshot c' sel' now']
  ∧ redoStack r.2 = redoStack s.
Proof.
  intros Hne. simpl. rewrite undo_nonempty by done. simpl.
  rewrite redo_nonempty by (simpl; by destruct (redoStack s)). simpl.
  rewrite last_snoc, removelast_last. split; [done|]. split; [|done].
  by eexists.
Qed.

Lemma undo_then_redo_restores_witness :
  undoStack threeDeep ≠ []
  ∧ let u := undo "D" (Some caretInThirdParagraph) 500 threeDeep in
    let r := redo "C" None 520 u.2 in
    u.1 = last (undoStack threeDeep)
    ∧ (∃ snap, r.1 = Some snap ∧ html snap = "D"
               ∧ selection snap = Some caretInThirdParagraph)
    ∧ undoStack r.2 = removelast (undoStack threeDeep) ++ [mkSnapshot "C" None 520]
    ∧ redoStack r.2 = redoStack threeDeep.
Proof.
  split; [vm_compute; discriminate|].
  apply (undo_then_redo_restores threeDeep "D" (Some caretInThirdParagraph) 500
                                 "C" None 520).
  vm_compute; discriminate.
Defined.

Lemma last_trim_snoc N (u : list HistorySnapshot) x :
  (1 ≤ N)%Z → last (trim N (u ++ [x])) = Some x.
Proof.
  intros HN. unfold trim. case_bool_decide as Hc.
  - destruct u as [|y u]; simpl in *; [lia|]. apply last_snoc.
  - apply last_snoc.
Qed.

(** Whatever the capacity, trimming after a push leaves the pushed entry
    on top, or nothing at all; the latter only if the capacity is below
    one. *)
Lemma trim_snoc_cases N (u : list HistorySnapshot) x :
  last (trim N (u ++ [x])) = Some x
  ∨ (trim N (u ++ [x]) = [] ∧ u = [] ∧ (N < 1)%Z).
Proof.
  unfold trim. case_bool_decide as Hc.
  - destruct u as [|y u]; simpl in *.
    + right. repeat split. lia.
    + left. apply last_snoc.
  - left. apply last_snoc.
Qed.

(** After [doPush] the pushed content is on top of the undo stack, or
    both stacks are empty and stay empty under any further [doPush]. *)
Lemma doPush_top h sel now s :
  html <$> last (undoStack (doPush h sel now s)) = Some h
  ∨ (undoStack (doPush h sel now s) = [] ∧ redoStack (doPush h sel now s) = []
     ∧ (maxSize s < 1)%Z).
Proof.
  unfold doPush.
  destruct (last (undoStack s)) as [top|] eqn:Hl; [case_bool_decide as Hd|].
  - left. rewrite Hl. simpl. by rewrite Hd.
  - simpl. destruct (trim_snoc_cases (maxSize s) (undoStack s)
                                     (mkSnapshot h sel now)) as [->|(->&_&?)];
      [by left|by right].
  - simpl. destruct (trim_snoc_cases (maxSize s) (undoStack s)
                                     (mkSnapshot h sel now)) as [->|(->&_&?)];
      [by left|by right].
Qed.

(** C8. Two pushes of the same content in a row on an unlocked manager,
    each reaching the commit logic (synchronously, or once its debounce
    has settled): the second push changes neither stack; the two pushes
    together added at most the one entry of the first push; and, the
    capacity being at least one, that content is the top entry of the undo
    stack afterwards. *)
Theorem push_twice_same_content s p1 p2 :
  locked s = false → p_html p2 = p_html p1 →
  let s1 := pushSettled s p1 in
  let s2 := pushSettled s1 p2 in
  undoStack s2 = undoStack s1
  ∧ redoStack s2 = redoStack s1
  ∧ (undoStack s1 = undoStack s
     ∨ undoStack s1
       = trim (maxSize s)
              (undoStack s ++ [mkSnapshot (p_html p1) (p_selection p1) (commitTime p1)]))
  ∧ ((1 ≤ maxSize s)%Z → html <$> last (undoStack s2) = Some (p_html p1)).
Proof.
  intros Hk Heq. simpl.
  destruct (pushSettled_unlocked s p1 Hk) as (Eu&Er&Em&Ek).
  rewrite doPush_locked in Ek. rewrite doPush_maxSize in Em.
  destruct (pushSettled_unlocked (pushSettled s p1) p2) as (Eu2&Er2&_&_);
    [congruence|].
  assert (Hsame : undoStack (pushSettled (pushSettled s p1) p2)
                  = undoStack (pushSettled s p1)
                  ∧ redoStack (pushSettled (pushSettled s p1) p2)
                    = redoStack (pushSettled s p1)).
  { destruct (doPush_top (p_html p1) (p_selection p1) (commitTime p1) s)
      as [Htop|(Hu0&Hr0&HN)].
    - rewrite <- Eu in Htop.
      destruct (last (undoStack (pushSettled s p1))) as [top|] eqn:Hl; [|done].
      simpl in Htop. injection Htop as Htop.
      rewrite (doPush_duplicate _ _ _ _ top) in Eu2, Er2 by congruence. done.
    - rewrite <- Eu in Hu0. rewrite <- Er in Hr0.
      rewrite Eu2, Er2, Hu0, Hr0. unfold doPush. rewrite Hu0. simpl.
      split; [|done]. unfold trim. simpl.
      rewrite bool_decide_eq_true_2; [done|]. lia. }
  destruct Hsame as (Hsu&Hsr). split; [done|]. split; [done|]. split.
  - rewrite Eu. unfold doPush.
    destruct (last (undoStack s)); [case_bool_decide|]; simpl; auto.
  - intros HN. rewrite Hsu.
    destruct (doPush_top (p_html p1) (p_selection p1) (commitTime p1) s)
      as [Htop|(_&_&?)]; [|lia].
    by rewrite Eu.
Qed.

Lemma push_twice_same_content_witness :
  let p1 := mkPush "D" None false 1000 in
  let p2 := mkPush "D" (Some caretInThirdParagraph) true 2000 in
  locked threeDeep = false ∧ p_html p2 = p_html p1
  ∧ let s1 := pushSettled threeDeep p1 in
    let s2 := pushSettled s1 p2 in
    undoStack s2 = undoStack s1
    ∧ redoStack s2 = redoStack s1
    ∧ (undoStack s1 = undoStack threeDeep
       ∨ undoStack s1
         = trim (maxSize threeDeep)
                (undoStack threeDeep
                 ++ [mkSnapshot (p_html p1) (p_selection p1) (commitTime p1)]))
    ∧ ((1 ≤ maxSize threeDeep)%Z → html <$> last (undoStack s2) = Some (p_html p1)).
Proof.
  split; [reflexivity|]. split; [reflexivity|].
  apply (push_twice_same_content threeDeep
           (mkPush "D" None false 1000)
           (mkPush "D" (Some caretInThirdParagraph) true 2000));
    reflexivity.
Defined.

(** C9. The lock is read on entry to [push] only. A debounced push
    accepted while the manager is unlocked arms a timer; if [lock()] is
    called before the delay has elapsed, the timer still runs the commit
    when it fires: with the lock set, the new entry is appended to the undo
    stack (the oldest entry leaving when the capacity is exceeded) and the
    redo stack is emptied. *)
Theorem debounced_commit_ignores_lock s h sel now now' :
  locked s = false → (now + DEBOUNCE_MS ≤ now')%Z →
  (∀ top, last (undoStack s) = Some top → html top ≠ h) →
  let armed := push h sel false now s in
  let fired := settle now' (lock armed) in
  undoStack (lock armed) = undoStack s
  ∧ redoStack (lock armed) = redoStack s
  ∧ locked (lock armed) = true
  ∧ locked fired = true
  ∧ undoStack fired = trim (maxSize s) (undoStack s ++ [mkSnapshot h sel now'])
  ∧ redoStack fired = [].
Proof.
  intros Hk Hdue Hne. simpl. unfold push. rewrite Hk.
  unfold settle, lock, setTimeout, fireTimer. simpl.
  rewrite lookup_insert_eq. simpl. rewrite bool_decide_eq_true_2 by done.
  rewrite doPush_locked. simpl.
  repeat split; try by destruct (debounceTimer s).
  - match goal with |- undoStack (doPush _ _ _ ?s0) = _ =>
      destruct (doPush_commit h sel now' s0) as (->&_) end;
      by destruct (debounceTimer s).
  - match goal with |- redoStack (doPush _ _ _ ?s0) = _ =>
      destruct (doPush_commit h sel now' s0) as (_&->) end;
      by destruct (debounceTimer s).
Qed.

Lemma debounced_commit_ignores_lock_witness :
  let s := (undo "C" None 450 threeDeep).2 in
  locked s = false ∧ (1000 + DEBOUNCE_MS ≤ 1300)%Z
  ∧ (∀ top, last (undoStack s) = Some top → html top ≠ "E")
  ∧ let armed := push "E" None false 1000 s in
    let fired := settle 1300 (lock armed) in
    undoStack (lock armed) = undoStack s
    ∧ redoStack (lock armed) = redoStack s
    ∧ locked (lock armed) = true
    ∧ locked fired = true
    ∧ undoStack fired = trim (maxSize s) (undoStack s ++ [mkSnapshot "E" None 1300])
    ∧ redoStack fired = [].
Proof.
  assert (Hne : ∀ top, last (undoStack (undo "C" None 450 threeDeep).2) = Some top
                       → html top ≠ "E").
  { intros top Hl. vm_compute in Hl. injection Hl as <-. discriminate. }
  split; [reflexivity|]. split; [vm_compute; discriminate|]. split; [exact Hne|].
  apply (debounced_commit_ignores_lock (undo "C" None 450 threeDeep).2
                                       "E" None 1000 1300).
  - reflexivity.
  - vm_compute; discriminate.
  - exact Hne.
Defined.

(** C10. A push whose content equals the content of the entry on top of
    the undo stack leaves both stacks as they were, so [canRedo] keeps its
    value and the top entry keeps its selection and timestamp; this holds
    for the call itself, whatever the [immediate] flag, and for a debounced
    push once its timer has fired. In general the commit logic empties the
    redo stack only together with appending the new entry. *)
Theorem push_duplicate_keeps_redo s top h sel now :
  last (undoStack s) = Some top → html top = h →
  (∀ immediate,
     let s' := push h sel immediate now s in
     undoStack s' = undoStack s ∧ redoStack s' = redoStack s
     ∧ canRedo s' = canRedo s ∧ last (undoStack s') = Some top)
  ∧ (∀ p, p_html p = h → locked s = false →
     let s' := pushSettled s p in
     undoStack s' = undoStack s ∧ redoStack s' = redoStack s
     ∧ canRedo s' = canRedo s ∧ last (undoStack s') = Some top)
  ∧ (∀ h' sel' now',
     let s' := doPush h' sel' now' s in
     (undoStack s' = undoStack s ∧ redoStack s' = redoStack s)
     ∨ (undoStack s' = trim (maxSize s) (undoStack s ++ [mkSnapshot h' sel' now'])
        ∧ redoStack s' = [])).
Proof.
  intros Hl Hh. split; [|split].
  - intros immediate. simpl. unfold push, canRedo.
    destruct (locked s); [done|]. destruct immediate.
    + rewrite (doPush_duplicate _ _ _ _ top);
        by destruct (debounceTimer s).
    + by destruct (debounceTimer s).
  - intros p Hp Hk. simpl.
    destruct (pushSettled_unlocked s p Hk) as (Eu&Er&_&_).
    rewrite (doPush_duplicate _ _ _ _ top) in Eu, Er by congruence.
    unfold canRedo. rewrite Eu, Er. done.
  - intros h' sel' now'. simpl. unfold doPush. rewrite Hl.
    case_bool_decide; [by left|by right].
Qed.

Lemma push_duplicate_keeps_redo_witness :
  let s := (undo "C" None 450 threeDeep).2 in
  let top := mkSnapshot "B" None 302 in
  let sel := Some caretInThirdParagraph in
  last (undoStack s) = Some top ∧ html top = "B" ∧ canRedo s = true
  ∧ (∀ immediate,
       let s' := push "B" sel immediate 600 s in
       undoStack s' = undoStack s ∧ redoStack s' = redoStack s
       ∧ canRedo s' = canRedo s ∧ last (undoStack s') = Some top)
  ∧ (∀ p, p_html p = "B" → locked s = false →
       let s' := pushSettled s p in
       undoStack s' = undoStack s ∧ redoStack s' = redoStack s
       ∧ canRedo s' = canRedo s ∧ last (undoStack s') = Some top)
  ∧ (∀ h' sel' now',
       let s' := doPush h' sel' now' s in
       (undoStack s' = undoStack s ∧ redoStack s' = redoStack s)
       ∨ (undoStack s' = trim (maxSize s) (undoStack s ++ [mkSnapshot h' sel' now'])
          ∧ redoStack s' = [])).
Proof.
  split; [reflexivity|]. split; [reflexivity|]. split; [reflexivity|].
  apply (push_duplicate_keeps_redo (undo "C" None 450 threeDeep).2
           (mkSnapshot "B" None 302) "B" (Some caretInThirdParagraph) 600);
    reflexivity.
Defined.

(** C3. Start from an empty manager of capacity [N]. After any sequence
    of pushes (immediate or debounced), timer firings, undos, redos,
    clears, locks and unlocks, the undo stack holds at most [N] entries;
    this accounts for [redo], which pushes onto the undo stack without
    trimming, because the two stacks together never hold more than [N].
    In particular, committing [N + 5] pairwise distinct contents one after
    the other leaves exactly [N] entries: the contents without the first
    five, in the order they were pushed. *)
Theorem undo_stack_never_exceeds_capacity (N : Z) :
  (0 ≤ N)%Z →
  (∀ ops,
     (Z.of_nat (length (undoStack (run ops (new N)))) ≤ N)%Z
     ∧ bounded (run ops (new N)))
  ∧ (∀ ps, length ps = Z.to_nat N + 5 → NoDup (p_html <$> ps) →
     length (undoStack (pushAll ps (new N))) = Z.to_nat N
     ∧ html <$> undoStack (pushAll ps (new N)) = drop 5 (p_html <$> ps)).
Proof.
  intros HN. split.
  - intros ops. destruct (run_bounded ops (new N)) as [Hb Hm].
    + done.
    + unfold bounded. simpl. lia.
    + split; [|done]. unfold bounded in Hb. rewrite Hm in Hb. simpl in Hb. lia.
  - intros ps Hlen Hnd.
    destruct (pushAll_distinct N ps HN Hnd) as (_&_&_&Hu).
    replace (length ps - Z.to_nat N) with 5 in Hu by lia.
    split; [|done].
    rewrite <- (length_fmap html), Hu, length_drop, length_fmap. lia.
Qed.

Lemma undo_stack_never_exceeds_capacity_witness :
  (0 ≤ 1)%Z
  ∧ (Z.of_nat (length (undoStack
        (run [OpPush "A" None true 1; OpPush "B" None false 2; OpFire 1 400;
              OpUndo "C" None 500; OpRedo "B" None 600] (new 1)))) ≤ 1)%Z
  ∧ html <$> undoStack
       (pushAll [mkPush "A" None true 1; mkPush "B" None true 2;
                 mkPush "C" None false 3; mkPush "D" None true 400;
                 mkPush "E" None true 500; mkPush "F" None false 600] (new 1))
    = ["F"].
Proof.
  split; [lia|].
  destruct (undo_stack_never_exceeds_capacity 1 ltac:(lia)) as [Hinv Hfifo].
  split.
  - apply Hinv.
  - apply (Hfifo [mkPush "A" None true 1; mkPush "B" None true 2;
                  mkPush "C" None false 3; mkPush "D" None true 400;
                  mkPush "E" None true 500; mkPush "F" None false 600]).
    + reflexivity.
    + apply (bool_decide_unpack _). vm_compute. exact I.
Defined.

End HistoryFacts.

(** * Properties of the selection addresses *)

Module SelectionFacts.
Import Dom Selection Scenario.

Lemma at_index_indexOf (l : list positive) x :
  x ∈ l → at_index l (indexOf l x) = Some x.
Proof.
  intros Hin. unfold indexOf, at_index.
  destruct (list_find_elem_of (λ y, y = x) l x Hin eq_refl) as [[i y] Hf].
  rewrite Hf. apply list_find_Some in Hf as (Hi&->&_).
  rewrite bool_decide_eq_true_2 by lia. by rewrite Nat2Z.id.
Qed.

Lemma getNodeFromPath_from_app d n p1 p2 :
  getNodeFromPath_from d n (p1 ++ p2)
  = getNodeFromPath_from d n p1 ≫= λ m, getNodeFromPath_from d m p2.
Proof.
  revert n. induction p1 as [|i p1 IH]; intros n; simpl; [done|].
  destruct (at_index (childrenOf d n) i); [apply IH|done].
Qed.

(** The walk up from a node [k] levels below the root, with fuel to
    spare, returns the address that leads back down to the node. *)
Lemma getNodePath_loop_under d root n k :
  parent_child d → under d root n k →
  ∀ fuel acc, k < fuel →
    ∃ path, length path = k
            ∧ getNodePath_loop fuel d root n acc = Some (path ++ acc)
            ∧ getNodeFromPath_from d root path = Some n.
Proof.
  intros Hpc Hu. induction Hu as [|n p k Hne Hp Hu IH]; intros fuel acc Hf.
  - exists []. destruct fuel; [lia|]. simpl. by rewrite decide_True.
  - destruct fuel as [|fuel]; [lia|]. simpl.
    rewrite decide_False by done. rewrite Hp.
    destruct (IH fuel (indexOf (childrenOf d p) n :: acc)) as (path&Hl&Hloop&Hres);
      [lia|].
    exists (path ++ [indexOf (childrenOf d p) n]). split; [|split].
    + rewrite length_app. simpl. lia.
    + by rewrite <- app_assoc.
    + rewrite getNodeFromPath_from_app, Hres. simpl.
      rewrite at_index_indexOf; [done|]. by apply Hpc.
Qed.

(** The depth of a node below the root is determined by the node. *)
Lemma under_functional d root n k k' :
  under d root n k → under d root n k' → k = k'.
Proof.
  intros Hu. revert k'. induction Hu as [|n p k Hne Hp Hu IH]; intros k' Hu'.
  - by inversion Hu'.
  - inversion Hu' as [|n' p' j Hne' Hp' Hu'']; subst; [done|].
    f_equal. apply IH. congruence.
Qed.

(** The nodes on the way from a node to the root are pairwise different
    nodes of the store, so there are at most [size d] of them. *)
Lemma under_chain d root n k :
  under d root n k →
  ∃ l : list positive, length l = k ∧ NoDup l
    ∧ ∀ x, x ∈ l → is_Some (d !! x) ∧ ∃ j, under d root x j ∧ 1 ≤ j ≤ k.
Proof.
  induction 1 as [|n p k Hne Hp Hu (l&Hl&Hnd&Hall)].
  - exists []. split; [done|]. split; [constructor|]. intros x Hx. inversion Hx.
  - exists (n :: l). split; [simpl; lia|]. split.
    + constructor; [|done]. intros Hin.
      destruct (Hall n Hin) as (_&j&Hj&Hle).
      pose proof (under_functional _ _ _ _ _ Hj (under_step _ _ _ _ _ Hne Hp Hu)).
      lia.
    + intros x [->|Hx]%elem_of_cons.
      * split.
        -- unfold parentOf in Hp. destruct (d !! n); [done|discriminate].
        -- exists (S k). split; [by eapply under_step|lia].
      * destruct (Hall x Hx) as (Hs&j&Hj&Hle). split; [done|].
        exists j. split; [done|lia].
Qed.

Lemma under_depth_bound (d : Document) root n k : under d root n k → k ≤ size d.
Proof.
  intros (l&<-&Hnd&Hall)%under_chain.
  rewrite <- (size_dom (D := gset positive)).
  apply submseteq_length, NoDup_submseteq; [done|].
  intros x Hx. apply elem_of_elements, elem_of_dom. by apply Hall.
Qed.

Lemma getNodePath_under d root n k :
  parent_child d → under d root n k →
  ∃ path, getNodePath d root n = Some path ∧ length path = k
          ∧ getNodeFromPath d root path = Some n.
Proof.
  intros Hpc Hu. pose proof (under_depth_bound _ _ _ _ Hu) as Hk.
  destruct (getNodePath_loop_under d root n k Hpc Hu (S (size d)) []) as
    (path&Hl&Hloop&Hres); [lia|].
  exists path. rewrite app_nil_r in Hloop. done.
Qed.

Lemma parent_child_check_sound d : parent_child_check d = true → parent_child d.
Proof.
  unfold parent_child_check, parent_child, parentOf.
  intros Hc n p Hp.
  destruct (d !! n) as [nd|] eqn:Hn; [|discriminate]. simpl in Hp.
  rewrite forallb_forall in Hc.
  specialize (Hc (n, nd)). simpl in Hc. rewrite Hp in Hc.
  eapply bool_decide_unpack, Is_true_true_2, Hc.
  by apply list_elem_of_In, elem_of_map_to_list.
Qed.

(** C5. In a document that satisfies the parent/child invariant of the
    DOM, take a position: a node [n] that lies under the root, [k] levels
    down, and an offset. [getNodePath] returns an address for [n]; the
    address has one index per level; [getNodeFromPath] resolves it, in the
    same document, to [n] itself. [serialize] stores the offset next to the
    address unchanged, so the serialized position decodes to the same node
    and the same offset. *)
Theorem address_roundtrip d root n k :
  parent_child d → under d root n k →
  (∃ path, getNodePath d root n = Some path ∧ length path = k
           ∧ getNodeFromPath d root path = Some n)
  ∧ ∀ offset rest, ∃ s,
      serialize d root (Some (mkRange n offset n offset :: rest)) = Some s
      ∧ getNodeFromPath d root (anchorPath s) = Some n
      ∧ anchorOffset s = offset
      ∧ getNodeFromPath d root (focusPath s) = Some n
      ∧ focusOffset s = offset.
Proof.
  intros Hpc Hu.
  destruct (getNodePath_under d root n k Hpc Hu) as (path&Hp&Hl&Hres).
  split; [by exists path|].
  intros offset rest. exists (mkSerializedSelection path offset path offset).
  unfold serialize. simpl. rewrite Hp. done.
Qed.

Lemma under_thirdText : under fiveWords root thirdText 2.
Proof.
  apply (under_step _ _ _ 4%positive); [done|reflexivity|].
  apply (under_step _ _ _ root); [done|reflexivity|].
  apply under_root.
Qed.

Lemma address_roundtrip_witness :
  parent_child fiveWords ∧ under fiveWords root thirdText 2
  ∧ (∃ path, getNodePath fiveWords root thirdText = Some path ∧ length path = 2
             ∧ getNodeFromPath fiveWords root path = Some thirdText)
  ∧ ∀ offset rest, ∃ s,
      serialize fiveWords root
                (Some (mkRange thirdText offset thirdText offset :: rest)) = Some s
      ∧ getNodeFromPath fiveWords root (anchorPath s) = Some thirdText
      ∧ anchorOffset s = offset
      ∧ getNodeFromPath fiveWords root (focusPath s) = Some thirdText
      ∧ focusOffset s = offset.
Proof.
  split; [by apply parent_child_check_sound|].
  split; [exact under_thirdText|].
  apply (address_roundtrip fiveWords root thirdText 2).
  - by apply parent_child_check_sound.
  - exact under_thirdText.
Defined.


(** C1, as the code has it. Five paragraphs with any texts; a caret at
    [offset] in the text of the third paragraph is captured as the address
    [2, 0] with that offset. After the first paragraph is removed, the
    address resolves to the text of the paragraph that is third now, the
    fourth of the original document, and [deserialize] puts the caret
    there at the same offset whenever that text is long enough; only when
    the offset exceeds its length is the selection left as it was. *)
Theorem restore_after_deletion_is_positional t1 t2 t3 t4 t5 offset :
  (0 ≤ offset ≤ Z.of_nat (String.length t3))%Z → (offset < 4294967296)%Z →
  serialize (paragraphs t1 t2 t3 t4 t5) root (caret thirdText offset)
  = Some (mkSerializedSelection [2; 0]%Z offset [2; 0]%Z offset)
  ∧ getNodeFromPath (removeChild root firstParagraph (paragraphs t1 t2 t3 t4 t5))
                    root [2; 0]%Z
    = Some fourthText
  ∧ deserialize (removeChild root firstParagraph (paragraphs t1 t2 t3 t4 t5))
                root (caret thirdText offset)
                (mkSerializedSelection [2; 0]%Z offset [2; 0]%Z offset)
    = if bool_decide (offset ≤ Z.of_nat (String.length t4))%Z
      then caret fourthText offset
      else caret thirdText offset.
Proof.
  intros Hoff Hmax.
  set (d' := removeChild root firstParagraph (paragraphs t1 t2 t3 t4 t5)).
  assert (Hres : getNodeFromPath d' root [2; 0]%Z = Some fourthText)
    by reflexivity.
  assert (Hlen : nodeLength d' fourthText = Z.of_nat (String.length t4))
    by reflexivity.
  assert (Hpath : getNodePath d' root fourthText = Some [2; 0]%Z)
    by reflexivity.
  split; [reflexivity|]. split; [done|].
  unfold deserialize. simpl anchorPath. simpl focusPath.
  simpl anchorOffset. simpl focusOffset. rewrite Hres.
  unfold rangeBetween, toUint32, before.
  rewrite Z.mod_small by lia. rewrite Hlen, Hpath. simpl bp_before.
  rewrite (bool_decide_eq_false_2 (offset < offset)%Z) by lia.
  by case_bool_decide.
Qed.

Lemma restore_after_deletion_is_positional_witness :
  (0 ≤ 2 ≤ Z.of_nat (String.length "three"))%Z ∧ (2 < 4294967296)%Z
  ∧ serialize fiveWords root (caret thirdText 2)
    = Some (mkSerializedSelection [2; 0]%Z 2 [2; 0]%Z 2)
  ∧ getNodeFromPath (removeChild root firstParagraph fiveWords) root [2; 0]%Z
    = Some fourthText
  ∧ deserialize (removeChild root firstParagraph fiveWords) root
                (caret thirdText 2)
                (mkSerializedSelection [2; 0]%Z 2 [2; 0]%Z 2)
    = if bool_decide (2 ≤ Z.of_nat (String.length "four"))%Z
      then caret fourthText 2
      else caret thirdText 2.
Proof.
  split; [simpl; lia|]. split; [lia|].
  apply (restore_after_deletion_is_positional "one" "two" "three" "four" "five" 2).
  - simpl; lia.
  - lia.
Defined.

(** C1, as the specification states it, fails: in the document with the
    paragraphs one, two, three, four, five, the caret captured at offset
    2 in [three] is restored, after the first paragraph was removed, at
    offset 2 in [four]. The restoration does not fail: the selection of
    the page changes, to a position in the wrong text. *)
Lemma restore_after_deletion_does_not_fail :
  let before := fiveWords in
  let after := removeChild root firstParagraph fiveWords in
  let w := caret thirdText 2 in
  ∃ address,
    serialize before root w = Some address
    ∧ kind <$> before !! thirdText = Some (TextNode "three")
    ∧ getNodeFromPath before root (anchorPath address) = Some thirdText
    ∧ getNodeFromPath after root (anchorPath address) = Some fourthText
    ∧ kind <$> after !! fourthText = Some (TextNode "four")
    ∧ deserialize after root w address = caret fourthText 2
    ∧ deserialize after root w address ≠ w.
Proof.
  exists (mkSerializedSelection [2; 0]%Z 2 [2; 0]%Z 2).
  repeat split; try reflexivity. vm_compute. discriminate.
Qed.

End SelectionFacts.

(** * Properties of the editor *)

Module EditorFacts.
Import Dom Selection Editor Scenario.

Section Platform.

Variable innerHTML : Document → positive → string.
Variable innerText : Document → positive → string.
Variable setInnerHTML : string → Page → positive → string + Page.

(** A change within the limit is recorded and announced. *)
Lemma change_within_limit now e :
  _destroyed e = false →
  (maxLength e ≤ 0
   ∨ Z.of_nat (String.length (innerText (document (page e)) (editable e)))
     ≤ maxLength e)%Z →
  let html := innerHTML (document (page e)) (editable e) in
  let text := innerText (document (page e)) (editable e) in
  let e' := _onContentChange innerHTML innerText now e in
  history e' = History.push html (captureSelection e) false now (history e)
  ∧ effects e' = effects e ++ [UpdateStatusBar; UpdatePlaceholder;
                               Emit "change" [html; text]; OnChange html text;
                               ToolbarRefresh]
  ∧ page e' = page e.
Proof.
  intros Hd Hlim. simpl. unfold _onContentChange. rewrite Hd.
  assert (bool_decide (maxLength e > 0)%Z
          && bool_decide
               (Z.of_nat (String.length (innerText (document (page e)) (editable e)))
                > maxLength e)%Z = false) as ->.
  { apply andb_false_iff. destruct Hlim.
    - left. apply bool_decide_eq_false_2. lia.
    - right. apply bool_decide_eq_false_2. lia. }
  simpl. repeat split. by rewrite <- !app_assoc.
Qed.

(** C4. With a positive [maxLength] and a text longer than it, the change
    handler returns at once: the editor afterwards is the editor before.
    No snapshot is pushed and no timer armed, no [change] event is emitted
    and no callback called, and the page is untouched: the over-long
    content stays in the document, neither cut nor replaced by an earlier
    state. *)
Theorem over_length_edit_is_dropped now e :
  (maxLength e > 0)%Z →
  (Z.of_nat (String.length (innerText (document (page e)) (editable e)))
   > maxLength e)%Z →
  let e' := _onContentChange innerHTML innerText now e in
  history e' = history e ∧ effects e' = effects e ∧ page e' = page e ∧ e' = e.
Proof.
  intros Hmax Hlen. simpl. unfold _onContentChange.
  destruct (_destroyed e); [done|].
  by rewrite !bool_decide_eq_true_2.
Qed.

Lemma replay_normal event snapshot e pg :
  setInnerHTML (html snapshot) (page e) (editable e) = inr pg →
  (replay setInnerHTML event snapshot e).1 = Normal
  ∧ History.locked (history (replay setInnerHTML event snapshot e).2) = false.
Proof. intros Hs. unfold replay. simpl. rewrite Hs. done. Qed.

(** C2, as the code has it. When the content assignment returns, the undo
    and the redo command complete normally; if a snapshot was replayed the
    lock is released at the end, whether or not the snapshot carries a
    selection and whether or not that selection could be restored; if
    there was nothing to undo or redo the editor, and with it the lock, is
    as before. The same holds for the commands run through
    [CommandManager.exec]. *)
Theorem replay_releases_lock_on_normal_exit now e :
  assigns setInnerHTML (page e) (editable e) →
  let cur := innerHTML (document (page e)) (editable e) in
  let sel := captureSelection e in
  ((undoExecute innerHTML setInnerHTML now e).1 = Normal
   ∧ match (History.undo cur sel now (history e)).1 with
     | Some _ =>
         History.locked (history (undoExecute innerHTML setInnerHTML now e).2) = false
         ∧ History.locked (history (undo innerHTML setInnerHTML now e)) = false
     | None =>
         (undoExecute innerHTML setInnerHTML now e).2 = e
         ∧ undo innerHTML setInnerHTML now e = e
     end)
  ∧ ((redoExecute innerHTML setInnerHTML now e).1 = Normal
     ∧ match (History.redo cur sel now (history e)).1 with
       | Some _ =>
           History.locked (history (redoExecute innerHTML setInnerHTML now e).2) = false
           ∧ History.locked (history (redo innerHTML setInnerHTML now e)) = false
       | None =>
           (redoExecute innerHTML setInnerHTML now e).2 = e
           ∧ redo innerHTML setInnerHTML now e = e
       end).
Proof.
  intros Hset. simpl. split.
  - unfold undo, exec, undoExecute.
    destruct (decide (History.undoStack (history e) = [])) as [He|Hne].
    + rewrite HistoryFacts.undo_empty by done. simpl.
      assert (set_history (history e) e = e) as -> by by destruct e.
      split; [done|]. split; [done|]. by destruct (History.canUndo (history e)).
    + rewrite HistoryFacts.undo_nonempty by done.
      destruct (last (History.undoStack (history e))) as [snap|] eqn:Hl.
      2:{ apply last_None in Hl. done. }
      match goal with |- context [replay _ _ _ ?e0] =>
        destruct (Hset (html snap)) as (pg&Hpg);
        destruct (replay_normal "history:undo" snap e0 pg Hpg) as (Hn&Hk) end.
      simpl. split; [done|]. split; [done|].
      unfold History.canUndo. rewrite bool_decide_eq_true_2.
      2:{ destruct (History.undoStack (history e)); [done|simpl; lia]. }
      match goal with |- context [replay _ _ _ ?e0] =>
        destruct (replay setInnerHTML "history:undo" snap e0) as [c e1] end.
      simpl in *. by subst c.
  - unfold redo, exec, redoExecute.
    destruct (decide (History.redoStack (history e) = [])) as [He|Hne].
    + rewrite HistoryFacts.redo_empty by done. simpl.
      assert (set_history (history e) e = e) as -> by by destruct e.
      split; [done|]. split; [done|]. by destruct (History.canRedo (history e)).
    + rewrite HistoryFacts.redo_nonempty by done.
      destruct (last (History.redoStack (history e))) as [snap|] eqn:Hl.
      2:{ apply last_None in Hl. done. }
      match goal with |- context [replay _ _ _ ?e0] =>
        destruct (Hset (html snap)) as (pg&Hpg);
        destruct (replay_normal "history:redo" snap e0 pg Hpg) as (Hn&Hk) end.
      simpl. split; [done|]. split; [done|].
      unfold History.canRedo. rewrite bool_decide_eq_true_2.
      2:{ destruct (History.redoStack (history e)); [done|simpl; lia]. }
      match goal with |- context [replay _ _ _ ?e0] =>
        destruct (replay setInnerHTML "history:redo" snap e0) as [c e1] end.
      simpl in *. by subst c.
Qed.

End Platform.

Lemma over_length_edit_is_dropped_witness :
  (maxLength demoEditor > 0)%Z
  ∧ (Z.of_nat (String.length
        (plainText (document (page demoEditor)) (editable demoEditor)))
     > maxLength demoEditor)%Z
  ∧ let e' := _onContentChange markup plainText 700 demoEditor in
    history e' = history demoEditor ∧ effects e' = effects demoEditor
    ∧ page e' = page demoEditor ∧ e' = demoEditor.
Proof.
  split; [reflexivity|]. split; [reflexivity|].
  apply (over_length_edit_is_dropped markup plainText 700 demoEditor);
    reflexivity.
Defined.

Lemma clearingSetter_assigns pg n : assigns clearingSetter pg n.
Proof. intros m. eexists. reflexivity. Defined.

Lemma replay_releases_lock_on_normal_exit_witness :
  assigns clearingSetter (page demoEditor) (editable demoEditor)
  ∧ (undoExecute markup clearingSetter 500 demoEditor).1 = Normal
  ∧ History.locked (history (undo markup clearingSetter 500 demoEditor)) = false.
Proof.
  split; [apply clearingSetter_assigns|].
  destruct (replay_releases_lock_on_normal_exit markup clearingSetter 500 demoEditor
              (clearingSetter_assigns _ _)) as ((Hn&Hu)&_).
  split; [exact Hn|]. exact (proj2 Hu).
Defined.

(** C2, as the specification states it, fails. The content assignment
    throws during the replay of an undo (and of a redo): [execute] is left
    with the exception before [unlock()] has run, [CommandManager.exec]
    catches and logs it, and the lock stays set. The pushes that follow,
    direct ones and those of the change handler, are ignored, although the
    same push on the unlocked manager would be recorded. *)
Lemma replay_exception_leaves_lock_set :
  let r := undoExecute markup throwingSetter 500 demoEditor in
  let e' := undo markup throwingSetter 500 demoEditor in
  let redoable :=
    set_history (History.undo "C" None 450 (history demoEditor)).2 demoEditor in
  r.1 = Throw "TypeError"
  ∧ History.locked (history r.2) = true
  ∧ History.locked (history e') = true
  ∧ effects e' = [ConsoleError "undo" "TypeError"]
  ∧ History.push "<p>new</p>" None true 600 (history e') = history e'
  ∧ history (_onContentChange markup (λ _ _, "short") 600 e') = history e'
  ∧ History.undoStack
      (History.push "<p>new</p>" None true 600 (History.unlock (history e')))
    ≠ History.undoStack (history e')
  ∧ (redoExecute markup throwingSetter 500 redoable).1 = Throw "TypeError"
  ∧ History.locked (history (redo markup throwingSetter 500 redoable)) = true.
Proof.
  repeat split; try reflexivity. vm_compute. discriminate.
Qed.

End EditorFacts.

(** * More about the history: timers, bursts, round trips *)

Module HistoryMore.
Import History HistoryRuns HistoryFacts.

Lemma doPush_timers h sel now s :
  timers (doPush h sel now s) = timers s
  ∧ debounceTimer (doPush h sel now s) = debounceTimer s
  ∧ nextHandle (doPush h sel now s) = nextHandle s.
Proof.
  unfold doPush. destruct (last (undoStack s)); [case_bool_decide|]; done.
Qed.

Lemma one_timer_empty s : one_timer s → debounceTimer s = None → timers s = ∅.
Proof.
  intros H1 Hd. apply map_empty. intros id.
  destruct (timers s !! id) eqn:E; [|done].
  rewrite (H1 id) in Hd by (by rewrite E). done.
Qed.

Lemma one_timer_delete s id :
  one_timer s → debounceTimer s = Some id → delete id (timers s) = ∅.
Proof.
  intros H1 Hd. apply map_empty. intros id'.
  destruct (decide (id = id')) as [->|Hne]; [by rewrite lookup_delete_eq|].
  rewrite lookup_delete_ne by done.
  destruct (timers s !! id') eqn:E; [|done].
  rewrite (H1 id') in Hd by (by rewrite E). congruence.
Qed.

(** What the two branches of [push] leave in the timer table. *)
Lemma push_immediate_timers h sel now s :
  one_timer s → locked s = false →
  timers (push h sel true now s) = ∅
  ∧ debounceTimer (push h sel true now s) = None.
Proof.
  intros H1 Hk. unfold push. rewrite Hk.
  destruct (doPush_timers h sel now
              match debounceTimer s with
              | Some id => set_debounceTimer None (clearTimeout id s)
              | None => s
              end) as (->&->&_).
  destruct (debounceTimer s) as [id|] eqn:Hd; simpl.
  - split; [|done]. by apply one_timer_delete.
  - split; [|done]. by apply one_timer_empty.
Qed.

Lemma push_debounced_timers h sel now s :
  one_timer s → locked s = false →
  timers (push h sel false now s)
  = {[ nextHandle s := mkTimeout (now + DEBOUNCE_MS) h sel ]}
  ∧ debounceTimer (push h sel false now s) = Some (nextHandle s)
  ∧ nextHandle (push h sel false now s) = Pos.succ (nextHandle s)
  ∧ same_core (push h sel false now s) s.
Proof.
  intros H1 Hk. unfold push. rewrite Hk.
  destruct (debounceTimer s) as [id|] eqn:Hd; simpl.
  - rewrite (one_timer_delete s id) by done. repeat split.
  - rewrite (one_timer_empty s) by done. repeat split.
Qed.

Lemma step_timers s o :
  one_timer s → handles_fresh s →
  one_timer (step s o) ∧ handles_fresh (step s o).
Proof.
  intros H1 H2. destruct o; simpl.
  - destruct (locked s) eqn:Hk; [by unfold push; rewrite Hk|].
    destruct immediate.
    + destruct (push_immediate_timers h sel now s H1 Hk) as (Ht&Hd).
      split.
      * intros id [t Hid]. rewrite Ht in Hid. done.
      * intros id Hid. congruence.
    + destruct (push_debounced_timers h sel now s H1 Hk) as (Ht&Hd&Hn&_).
      split.
      * intros id [t Hid]. rewrite Ht in Hid.
        apply lookup_singleton_Some in Hid as [<- _]. done.
      * intros id Hid. rewrite Hn. rewrite Hd in Hid. injection Hid as <-. lia.
  - unfold undo. by destruct (undoStack s).
  - unfold redo. by destruct (redoStack s).
  - unfold clear. simpl. destruct (debounceTimer s) as [id|] eqn:Hd; simpl.
    + split.
      * intros id' [t Hid]. simpl in Hid.
        rewrite (one_timer_delete s id) in Hid by done. done.
      * intros id'. done.
    + split.
      * intros id' [t Hid]. simpl in Hid.
        rewrite (one_timer_empty s) in Hid by done. done.
      * intros id'. unfold set_redoStack, set_undoStack. simpl. by rewrite Hd.
  - done.
  - done.
  - unfold fireTimer. destruct (timers s !! id) as [t|] eqn:Ht; [|done].
    case_bool_decide; [|done].
    destruct (doPush_timers (cb_html t) (cb_selection t) now (clearTimeout id s))
      as (Et&Ed&En).
    assert (Hd : debounceTimer s = Some id) by (apply H1; by rewrite Ht).
    split.
    + intros id' [t' Hid]. rewrite Et in Hid. simpl in Hid.
      rewrite (one_timer_delete s id) in Hid by done. done.
    + intros id' Hid. rewrite En. rewrite Ed in Hid. simpl in *. by apply H2.
Qed.

Lemma reachable_timers s : reachable s → one_timer s ∧ handles_fresh s.
Proof.
  intros (N&ops&->). unfold run.
  assert (Hgen : ∀ s0, one_timer s0 → handles_fresh s0 →
                       one_timer (foldl step s0 ops) ∧ handles_fresh (foldl step s0 ops)).
  { induction ops as [|o ops IH]; intros s0 H1 H2; [done|].
    simpl. destruct (step_timers s0 o H1 H2). by apply IH. }
  apply Hgen.
  - intros id [t Hid]. simpl in Hid. done.
  - intros id Hid. simpl in Hid. done.
Qed.

Lemma reachable_step s o : reachable s → reachable (step s o).
Proof.
  intros (N&ops&->). exists N, (ops ++ [o]). unfold run. by rewrite foldl_snoc.
Qed.

(** X1. A manager never has more than one commit pending: in every state
    it can reach, an armed timer is the one whose handle [debounceTimer]
    holds, so any two armed timers are the same timer. *)
Theorem at_most_one_pending_commit N ops :
  let s := run ops (new N) in
  (∀ id t, timers s !! id = Some t → debounceTimer s = Some id)
  ∧ (∀ id1 id2, is_Some (timers s !! id1) → is_Some (timers s !! id2) → id1 = id2)
  ∧ size (timers s) ≤ 1.
Proof.
  simpl. destruct (reachable_timers (run ops (new N))) as (H1&_);
    [by exists N, ops|].
  assert (H2 : ∀ id1 id2, is_Some (timers (run ops (new N)) !! id1) →
                 is_Some (timers (run ops (new N)) !! id2) → id1 = id2).
  { intros id1 id2 Ha Hb. apply H1 in Ha, Hb. congruence. }
  split; [|split; [done|]].
  - intros id t Hid. apply H1. by rewrite Hid.
  - destruct (debounceTimer (run ops (new N))) as [id|] eqn:Hd.
    + destruct (timers (run ops (new N)) !! id) as [t|] eqn:Ht.
      * rewrite <- (insert_delete_id _ _ _ Ht).
        rewrite (one_timer_delete _ id) by done.
        by rewrite insert_empty, map_size_singleton.
      * assert (timers (run ops (new N)) = ∅) as ->; [|rewrite map_size_empty; lia].
        apply map_empty. intros id'.
        destruct (timers _ !! id') eqn:E; [|done].
        assert (id' = id) as -> by (eapply (inj Some); rewrite <- Hd; symmetry; apply H1; by rewrite E).
        congruence.
    + rewrite (one_timer_empty _ H1 Hd). rewrite map_size_empty. lia.
Qed.

Lemma burst_unlocked ps s :
  one_timer s → locked s = false →
  one_timer (burst ps s) ∧ locked (burst ps s) = false ∧ same_core (burst ps s) s.
Proof.
  intros H1 Hk. unfold burst.
  induction ps as [|p ps IH] using rev_ind; [by repeat split|].
  rewrite foldl_snoc. destruct IH as (I1&Ik&Ic). unfold pushDebounced at 1 3 5.
  destruct (push_debounced_timers (p_html p) (p_selection p) (p_now p)
              (foldl pushDebounced s ps) I1 Ik) as (Ht&Hd&_&Hc).
  split; [|split].
  - intros id [t Hid]. rewrite Ht in Hid.
    apply lookup_singleton_Some in Hid as [<- _]. done.
  - destruct Hc as (_&_&_&->). done.
  - by eapply same_core_trans.
Qed.

(** X2. Of a burst of debounced pushes only the last one is ever
    committed. After the burst (no timer firing in between, the manager
    unlocked) the stacks are as before it and exactly one callback is
    armed, the one of the last push; whichever timer the host fires, and
    whenever, either nothing happens or the content of the last push goes
    through the commit logic. *)
Theorem burst_commits_last_only N ops ps p :
  locked (run ops (new N)) = false →
  let s := run ops (new N) in
  let b := burst (ps ++ [p]) s in
  undoStack b = undoStack s ∧ redoStack b = redoStack s
  ∧ (∃ id, debounceTimer b = Some id
           ∧ timers b = {[ id := mkTimeout (p_now p + DEBOUNCE_MS)
                                          (p_html p) (p_selection p) ]})
  ∧ ∀ id now,
      fireTimer id now b = b
      ∨ (same_core (fireTimer id now b)
                   (doPush (p_html p) (p_selection p) now s)
         ∧ timers (fireTimer id now b) = ∅).
Proof.
  intros Hk. simpl.
  destruct (reachable_timers (run ops (new N))) as (H1&_); [by exists N, ops|].
  destruct (burst_unlocked ps _ H1 Hk) as (B1&Bk&Bc).
  unfold burst. rewrite foldl_snoc. fold (burst ps (run ops (new N))).
  cbv beta delta [pushDebounced].
  destruct (push_debounced_timers (p_html p) (p_selection p) (p_now p)
              (burst ps (run ops (new N))) B1 Bk) as (Ht&Hd&_&Hc).
  pose proof (same_core_trans _ _ _ Hc Bc) as (Eu&Er&Em&El).
  set (b0 := burst ps (run ops (new N))) in *.
  set (b := push (p_html p) (p_selection p) false (p_now p) b0) in *.
  split; [done|]. split; [done|]. split; [by eexists|].
  intros id now. unfold fireTimer. rewrite Ht.
  destruct (decide (id = nextHandle b0)) as [->|Hne].
  - rewrite lookup_singleton_eq. simpl. case_bool_decide; [|by left]. right.
    split.
    + apply doPush_same_core. by repeat split.
    + match goal with |- timers (doPush ?x ?y ?z ?w) = _ =>
        destruct (doPush_timers x y z w) as (->&_) end.
      simpl. rewrite Ht. apply delete_singleton_eq.
  - rewrite lookup_singleton_ne by done. by left.
Qed.

Lemma burst_commits_last_only_witness :
  let ops := [OpPush "A" None true 1; OpPush "B" None false 2] in
  let ps := [mkPush "C" None false 10; mkPush "D" None false 20] in
  let p := mkPush "E" None false 30 in
  locked (run ops (new 3)) = false
  ∧ undoStack (burst (ps ++ [p]) (run ops (new 3))) = undoStack (run ops (new 3))
  ∧ html <$> undoStack (settle 330 (burst (ps ++ [p]) (run ops (new 3))))
    = ["A"; "E"].
Proof.
  split; [reflexivity|].
  destruct (burst_commits_last_only 3
              [OpPush "A" None true 1; OpPush "B" None false 2]
              [mkPush "C" None false 10; mkPush "D" None false 20]
              (mkPush "E" None false 30) eq_refl) as (Hu&_).
  split; [exact Hu|reflexivity].
Defined.

(** X3. An immediate push supersedes a pending debounced one. After
    [push(html, selection, true)] on an unlocked manager no callback is
    armed any more, so whatever the host fires afterwards changes
    nothing: the content of an earlier debounced push that had not been
    committed yet never reaches the undo stack. *)
Theorem immediate_push_supersedes_pending N ops h sel now :
  locked (run ops (new N)) = false →
  let s' := push h sel true now (run ops (new N)) in
  timers s' = ∅ ∧ debounceTimer s' = None
  ∧ same_core s' (doPush h sel now (run ops (new N)))
  ∧ ∀ id now', fireTimer id now' s' = s'.
Proof.
  intros Hk. simpl.
  destruct (reachable_timers (run ops (new N))) as (H1&_); [by exists N, ops|].
  destruct (push_immediate_timers h sel now _ H1 Hk) as (Ht&Hd).
  split; [done|]. split; [done|]. split.
  - unfold push. rewrite Hk. apply doPush_same_core.
    destruct (debounceTimer (run ops (new N))); by repeat split.
  - intros id now'. unfold fireTimer. by rewrite Ht.
Qed.

Lemma immediate_push_supersedes_pending_witness :
  let ops := [OpPush "A" None true 1; OpPush "B" None false 2] in
  locked (run ops (new 3)) = false
  ∧ html <$> undoStack (fireTimer 1 400 (push "C" None true 5 (run ops (new 3))))
    = ["A"; "C"].
Proof.
  split; [reflexivity|].
  destruct (immediate_push_supersedes_pending 3
              [OpPush "A" None true 1; OpPush "B" None false 2] "C" None 5 eq_refl)
    as (_&_&_&Hf).
  rewrite Hf. reflexivity.
Defined.

(** X4. [clear()] cancels the pending commit. In every reachable state,
    after [clear] both stacks are empty, neither undo nor redo is
    available, no callback is armed, and a timer the host fires later
    changes nothing. *)
Theorem clear_cancels_pending_commit N ops :
  let s := clear (run ops (new N)) in
  undoStack s = [] ∧ redoStack s = []
  ∧ canUndo s = false ∧ canRedo s = false
  ∧ timers s = ∅
  ∧ ∀ id now, fireTimer id now s = s.
Proof.
  simpl.
  destruct (reachable_timers (run ops (new N))) as (H1&_); [by exists N, ops|].
  assert (Ht : timers (clear (run ops (new N))) = ∅).
  { unfold clear. simpl.
    destruct (debounceTimer (run ops (new N))) as [id|] eqn:Hd; simpl.
    - by apply one_timer_delete.
    - by apply one_timer_empty. }
  assert (Hs : undoStack (clear (run ops (new N))) = []
               ∧ redoStack (clear (run ops (new N))) = []).
  { unfold clear. simpl. by destruct (debounceTimer (run ops (new N))). }
  destruct Hs as (Hu&Hr). unfold canUndo, canRedo. rewrite Hu, Hr.
  repeat split; try done.
  intros id now. unfold fireTimer. by rewrite Ht.
Qed.

(** X5. Push, then undo. On an unlocked manager of capacity at least
    one, after a push of content that differs from the top entry has been
    committed, [undo] returns exactly that snapshot (content, selection
    and commit time) and puts the caller's current state on the redo
    stack, which the push had emptied. The undo stack is back to what it
    was before the push, unless the push evicted the oldest entry. *)
Theorem push_then_undo s p c sel now :
  locked s = false → (1 ≤ maxSize s)%Z →
  (∀ top, last (undoStack s) = Some top → html top ≠ p_html p) →
  let u := undo c sel now (pushSettled s p) in
  u.1 = Some (mkSnapshot (p_html p) (p_selection p) (commitTime p))
  ∧ redoStack u.2 = [mkSnapshot c sel now]
  ∧ undoStack u.2
    = if bool_decide (Z.of_nat (length (undoStack s)) < maxSize s)%Z
      then undoStack s else tail (undoStack s).
Proof.
  intros Hk HN Hne. simpl.
  destruct (pushSettled_unlocked s p Hk) as (Eu&Er&_&_).
  destruct (doPush_commit (p_html p) (p_selection p) (commitTime p) s Hne)
    as (Hcu&Hcr).
  rewrite Hcu in Eu. rewrite Hcr in Er.
  assert (Hne' : undoStack (pushSettled s p) ≠ []).
  { intros He. pose proof (last_trim_snoc (maxSize s) (undoStack s)
      (mkSnapshot (p_html p) (p_selection p) (commitTime p)) HN) as Hl.
    rewrite <- Eu, He in Hl. done. }
  rewrite undo_nonempty by done. simpl. rewrite Eu, Er.
  split; [by apply last_trim_snoc|]. split; [done|].
  unfold trim. rewrite length_app. simpl.
  case_bool_decide as Hc; case_bool_decide as Hc'; try lia.
  - destruct (undoStack s) as [|x u]; simpl in *; [lia|].
    apply removelast_last.
  - apply removelast_last.
Qed.

Lemma push_then_undo_witness :
  let s := (undo "C" None 450 threeDeep).2 in
  let p := mkPush "X" (Some caretInThirdParagraph) false 500 in
  locked s = false ∧ (1 ≤ maxSize s)%Z
  ∧ (∀ top, last (undoStack s) = Some top → html top ≠ p_html p)
  ∧ let u := undo "Y" None 900 (pushSettled s p) in
    u.1 = Some (mkSnapshot (p_html p) (p_selection p) (commitTime p))
    ∧ redoStack u.2 = [mkSnapshot "Y" None 900]
    ∧ undoStack u.2
      = if bool_decide (Z.of_nat (length (undoStack s)) < maxSize s)%Z
        then undoStack s else tail (undoStack s).
Proof.
  assert (Hne : ∀ top, last (undoStack (undo "C" None 450 threeDeep).2) = Some top
                       → html top ≠ "X").
  { intros top Hl. vm_compute in Hl. injection Hl as <-. discriminate. }
  split; [reflexivity|]. split; [vm_compute; discriminate|]. split; [exact Hne|].
  apply (push_then_undo (undo "C" None 450 threeDeep).2
           (mkPush "X" (Some caretInThirdParagraph) false 500) "Y" None 900).
  - reflexivity.
  - vm_compute; discriminate.
  - exact Hne.
Defined.

(** X6. [redo] followed at once by [undo], on a manager that has
    something to redo: [undo] returns the state that was passed to [redo]
    as the current one; the undo stack is as it was before the two calls
    and the redo stack ends with the state passed to [undo] in place of
    the snapshot that [redo] returned. *)
Theorem redo_then_undo_restores s c sel now c' sel' now' :
  redoStack s ≠ [] →
  let r := redo c sel now s in
  let u := undo c' sel' now' r.2 in
  r.1 = last (redoStack s)
  ∧ u.1 = Some (mkSnapshot c sel now)
  ∧ undoStack u.2 = undoStack s
  ∧ redoStack u.2 = removelast (redoStack s) ++ [mkSnapshot c' sel' now'].
Proof.
  intros Hne. simpl. rewrite redo_nonempty by done. simpl.
  rewrite undo_nonempty by (simpl; by destruct (undoStack s)). simpl.
  by rewrite last_snoc, removelast_last.
Qed.

Lemma redo_then_undo_restores_witness :
  let s := (undo "C" None 450 threeDeep).2 in
  redoStack s ≠ []
  ∧ let r := redo "B" None 460 s in
    let u := undo "C" (Some caretInThirdParagraph) 470 r.2 in
    r.1 = last (redoStack s)
    ∧ u.1 = Some (mkSnapshot "B" None 460)
    ∧ undoStack u.2 = undoStack s
    ∧ redoStack u.2
      = removelast (redoStack s)
        ++ [mkSnapshot "C" (Some caretInThirdParagraph) 470].
Proof.
  split; [vm_compute; discriminate|].
  apply (redo_then_undo_restores (undo "C" None 450 threeDeep).2
           "B" None 460 "C" (Some caretInThirdParagraph) 470).
  vm_compute; discriminate.
Defined.

(** X7. Undo, then a push of the content that the undo restored: this
    is what the change handler does when it runs after the undo command.
    On an unlocked manager within its capacity whose two topmost entries
    differ in content, the push puts a snapshot with the restored content
    back where the undone one was and empties the redo stack: the undo
    stack holds the same contents as before the undo, and the state that
    [undo] had saved for redo is gone. *)
Theorem undo_then_push_restored_content s u top c sel now p :
  locked s = false → undoStack s = u ++ [top] →
  (Z.of_nat (length (undoStack s)) ≤ maxSize s)%Z →
  (∀ t, last u = Some t → html t ≠ html top) →
  p_html p = html top →
  let s1 := (undo c sel now s).2 in
  let s2 := pushSettled s1 p in
  (undo c sel now s).1 = Some top
  ∧ redoStack s1 = redoStack s ++ [mkSnapshot c sel now]
  ∧ html <$> undoStack s2 = html <$> undoStack s
  ∧ redoStack s2 = [] ∧ canRedo s2 = false.
Proof.
  intros Hk Hu Hcap Hne Hp. simpl.
  rewrite undo_nonempty by (rewrite Hu; by destruct u).
  simpl. rewrite Hu, last_snoc, removelast_last.
  split; [done|]. split; [done|].
  match goal with |- context [pushSettled ?x p] => set (s1 := x) end.
  destruct (pushSettled_unlocked s1 p Hk) as (Eu&Er&_&_).
  destruct (doPush_commit (p_html p) (p_selection p) (commitTime p) s1)
    as (Hcu&Hcr).
  { intros t Hl. rewrite Hp. by apply Hne. }
  unfold canRedo. rewrite Eu, Er, Hcu, Hcr. simpl.
  split; [|done]. unfold trim. rewrite Hu in Hcap. rewrite !length_app in *.
  simpl in *. rewrite bool_decide_eq_false_2 by lia.
  by rewrite !fmap_app, Hp.
Qed.

Lemma undo_then_push_restored_content_witness :
  let u := removelast (undoStack threeDeep) in
  let top := mkSnapshot "C" None 400 in
  let p := mkPush "C" (Some caretInThirdParagraph) false 460 in
  locked threeDeep = false ∧ undoStack threeDeep = u ++ [top]
  ∧ (Z.of_nat (length (undoStack threeDeep)) ≤ maxSize threeDeep)%Z
  ∧ (∀ t, last u = Some t → html t ≠ html top)
  ∧ p_html p = html top
  ∧ let s1 := (undo "C" None 450 threeDeep).2 in
    let s2 := pushSettled s1 p in
    (undo "C" None 450 threeDeep).1 = Some top
    ∧ redoStack s1 = redoStack threeDeep ++ [mkSnapshot "C" None 450]
    ∧ html <$> undoStack s2 = html <$> undoStack threeDeep
    ∧ redoStack s2 = [] ∧ canRedo s2 = false.
Proof.
  assert (Hne : ∀ t, last (removelast (undoStack threeDeep)) = Some t
                     → html t ≠ html (mkSnapshot "C" None 400)).
  { intros t Hl. vm_compute in Hl. injection Hl as <-. discriminate. }
  split; [reflexivity|]. split; [reflexivity|].
  split; [vm_compute; discriminate|]. split; [exact Hne|]. split; [reflexivity|].
  apply (undo_then_push_restored_content threeDeep
           (removelast (undoStack threeDeep)) (mkSnapshot "C" None 400)
           "C" None 450 (mkPush "C" (Some caretInThirdParagraph) false 460)).
  - reflexivity.
  - reflexivity.
  - vm_compute; discriminate.
  - exact Hne.
  - reflexivity.
Defined.

Lemma undo_availability s c sel now :
  (canUndo s = true ↔ is_Some (undo c sel now s).1)
  ∧ (canUndo s = false → undo c sel now s = (None, s))
  ∧ (canUndo s = true →
     canRedo (undo c sel now s).2 = true
     ∧ length (undoStack (undo c sel now s).2)
       + length (redoStack (undo c sel now s).2)
       = length (undoStack s) + length (redoStack s)).
Proof.
  unfold canUndo, canRedo. destruct (decide (undoStack s = [])) as [Eu|Nu].
  - rewrite undo_empty by done. rewrite Eu. simpl.
    split; [|done]. split; [done|]. by intros [? ?].
  - rewrite undo_nonempty by done. simpl.
    pose proof (length_removelast_nonempty _ Nu) as Hl.
    destruct (exists_last Nu) as (u&x&Hx).
    assert (Hlast : last (undoStack s) = Some x) by (rewrite Hx; apply last_snoc).
    rewrite Hlast, length_app. simpl.
    rewrite bool_decide_eq_true_2 by lia.
    rewrite bool_decide_eq_true_2 by lia.
    split; [done|]. split; [done|]. intros _. split; [done|]. lia.
Qed.

Lemma redo_availability s c sel now :
  (canRedo s = true ↔ is_Some (redo c sel now s).1)
  ∧ (canRedo s = false → redo c sel now s = (None, s))
  ∧ (canRedo s = true →
     canUndo (redo c sel now s).2 = true
     ∧ length (undoStack (redo c sel now s).2)
       + length (redoStack (redo c sel now s).2)
       = length (undoStack s) + length (redoStack s)).
Proof.
  unfold canUndo, canRedo. destruct (decide (redoStack s = [])) as [Er|Nr].
  - rewrite redo_empty by done. rewrite Er. simpl.
    split; [|done]. split; [done|]. by intros [? ?].
  - rewrite redo_nonempty by done. simpl.
    pose proof (length_removelast_nonempty _ Nr) as Hl.
    destruct (exists_last Nr) as (r&x&Hx).
    assert (Hlast : last (redoStack s) = Some x) by (rewrite Hx; apply last_snoc).
    rewrite Hlast, length_app. simpl.
    rewrite bool_decide_eq_true_2 by lia.
    rewrite bool_decide_eq_true_2 by lia.
    split; [done|]. split; [done|]. intros _. split; [done|]. lia.
Qed.

(** X8. [canUndo] and [canRedo] tell exactly whether the call would
    return a snapshot. With nothing to undo (redo), the call returns
    [null] and leaves the manager as it is. A successful undo makes redo
    available, a successful redo makes undo available, and either keeps
    the number of snapshots held by the two stacks together. *)
Theorem undo_redo_availability s c sel now :
  ((canUndo s = true ↔ is_Some (undo c sel now s).1)
   ∧ (canUndo s = false → undo c sel now s = (None, s))
   ∧ (canUndo s = true →
      canRedo (undo c sel now s).2 = true
      ∧ length (undoStack (undo c sel now s).2)
        + length (redoStack (undo c sel now s).2)
        = length (undoStack s) + length (redoStack s)))
  ∧ ((canRedo s = true ↔ is_Some (redo c sel now s).1)
     ∧ (canRedo s = false → redo c sel now s = (None, s))
     ∧ (canRedo s = true →
        canUndo (redo c sel now s).2 = true
        ∧ length (undoStack (redo c sel now s).2)
          + length (redoStack (redo c sel now s).2)
          = length (undoStack s) + length (redoStack s))).
Proof. split; [apply undo_availability|apply redo_availability]. Qed.

(** X9. Undoing [k] times in a row returns the snapshots from the top of
    the undo stack downwards: the topmost entries in reverse order of
    their arrival. The entries below stay on the undo stack, and the
    current states passed by the caller arrive on the redo stack in the
    order of the calls. A caller that asks for more undos than there are
    entries gets all of them and is then stopped by [null]. *)
Theorem undoMany_returns_top_down curs s :
  let n := length (undoStack s) in
  let r := undoMany curs s in
  r.1 = rev (drop (n - length curs) (undoStack s))
  ∧ undoStack r.2 = take (n - length curs) (undoStack s)
  ∧ redoStack r.2 = redoStack s ++ (snapshotOf <$> take n curs).
Proof.
  simpl. revert s. induction curs as [|c curs IH]; intros s.
  - simpl. rewrite Nat.sub_0_r, drop_all, firstn_all, take_nil.
    by rewrite app_nil_r.
  - simpl. destruct (decide (undoStack s = [])) as [Eu|Nu].
    + rewrite undo_empty by done. rewrite Eu. simpl. by rewrite app_nil_r.
    + rewrite undo_nonempty by done.
      destruct (exists_last Nu) as (u&x&Hx).
      assert (Hlast : last (undoStack s) = Some x) by (rewrite Hx; apply last_snoc).
      rewrite Hlast.
      match goal with |- context [undoMany curs ?s1] =>
        specialize (IH s1); destruct (undoMany curs s1) as [snaps s2] end.
      simpl in IH. destruct IH as (I1&I2&I3). simpl.
      rewrite I1, I2, I3, Hx, removelast_last, length_app. simpl.
      replace (length u + 1 - S (length curs)) with (length u - length curs) by lia.
      rewrite drop_app_le by lia. rewrite rev_app_distr. simpl.
      rewrite take_app_le by lia.
      replace (length u + 1) with (S (length u)) by lia. simpl.
      by rewrite <- app_assoc.
Qed.

End HistoryMore.

(** * More about the selection addresses *)

Module SelectionMore.
Import Dom Selection Scenario Tree SelectionFacts.

Lemma getNodePath_loop_sound d root fuel :
  ∀ n acc res,
    getNodePath_loop fuel d root n acc = Some res →
    ∃ path, res = path ++ acc ∧ under d root n (length path).
Proof.
  induction fuel as [|fuel IH]; intros n acc res; simpl; [done|].
  destruct (decide (n = root)) as [->|Hne].
  - intros [= <-]. exists []. split; [done|]. apply under_root.
  - destruct (parentOf d n) as [p|] eqn:Hp; [|done]. intros Hloop.
    destruct (IH _ _ _ Hloop) as (path&->&Hu).
    exists (path ++ [indexOf (childrenOf d p) n]). split.
    + by rewrite <- app_assoc.
    + rewrite length_app. simpl. rewrite Nat.add_1_r. by eapply under_step.
Qed.

(** X10. [getNodePath] returns an address exactly for the nodes that lie
    under the root, the root included, and [null] for every other node;
    the address has one index for each level between the root and the
    node. *)
Theorem address_iff_under_root d root n :
  parent_child d →
  (is_Some (getNodePath d root n) ↔ ∃ k, under d root n k)
  ∧ (∀ path, getNodePath d root n = Some path → under d root n (length path))
  ∧ ((∀ k, ¬ under d root n k) → getNodePath d root n = None)
  ∧ getNodePath d root root = Some [].
Proof.
  intros Hpc.
  assert (Hsound : ∀ path, getNodePath d root n = Some path
                           → under d root n (length path)).
  { intros path Hp. unfold getNodePath in Hp.
    destruct (getNodePath_loop_sound _ _ _ _ _ _ Hp) as (p&->&Hu).
    by rewrite app_nil_r. }
  split; [|split; [done|split]].
  - split.
    + intros [path Hp]. eexists. by apply Hsound.
    + intros [k Hu]. destruct (getNodePath_under d root n k Hpc Hu) as (p&->&_).
      done.
  - intros Hno. destruct (getNodePath d root n) as [path|] eqn:Hp; [|done].
    exfalso. eapply Hno. by apply Hsound.
  - unfold getNodePath. simpl. by rewrite decide_True.
Qed.

Lemma address_iff_under_root_witness :
  parent_child fiveWords
  ∧ (is_Some (getNodePath fiveWords root thirdText)
     ↔ ∃ k, under fiveWords root thirdText k)
  ∧ getNodePath fiveWords thirdText root = None.
Proof.
  split; [by apply parent_child_check_sound|].
  destruct (address_iff_under_root fiveWords root thirdText
              (parent_child_check_sound fiveWords eq_refl)) as (Hiff&_).
  split; [exact Hiff|reflexivity].
Defined.

(** X11. [serialize] returns [null] when there is no selection object,
    when the selection has no range, and when an end point of its first
    range lies outside the root; in every other case it returns the
    addresses of the two containers with the two offsets of that range
    unchanged. Ranges after the first are ignored. *)
Theorem serialize_first_range_under_root d root w :
  parent_child d →
  (is_Some (serialize d root w)
   ↔ ∃ r rest ka kf, w = Some (r :: rest)
       ∧ under d root (startContainer r) ka ∧ under d root (endContainer r) kf)
  ∧ (∀ s, serialize d root w = Some s →
       ∃ r rest, w = Some (r :: rest)
         ∧ getNodeFromPath d root (anchorPath s) = Some (startContainer r)
         ∧ getNodeFromPath d root (focusPath s) = Some (endContainer r)
         ∧ anchorOffset s = startOffset r ∧ focusOffset s = endOffset r)
  ∧ (∀ r rest rest',
       w = Some (r :: rest) → serialize d root (Some (r :: rest')) = serialize d root w).
Proof.
  intros Hpc. split; [|split].
  - split.
    + intros [s Hs]. unfold serialize in Hs.
      destruct w as [[|r rest]|]; try done.
      destruct (getNodePath d root (startContainer r)) as [pa|] eqn:Ha; [|done].
      destruct (getNodePath d root (endContainer r)) as [pf|] eqn:Hf; [|done].
      exists r, rest, (length pa), (length pf). split; [done|].
      split; by apply address_iff_under_root.
    + intros (r&rest&ka&kf&->&Ha&Hf). unfold serialize.
      destruct (getNodePath_under d root _ ka Hpc Ha) as (pa&->&_).
      destruct (getNodePath_under d root _ kf Hpc Hf) as (pf&->&_). done.
  - intros s Hs. unfold serialize in Hs.
    destruct w as [[|r rest]|]; try done.
    destruct (getNodePath d root (startContainer r)) as [pa|] eqn:Ha; [|done].
    destruct (getNodePath d root (endContainer r)) as [pf|] eqn:Hf; [|done].
    injection Hs as <-. exists r, rest. simpl.
    assert (Hua : under d root (startContainer r) (length pa))
      by by apply address_iff_under_root.
    assert (Huf : under d root (endContainer r) (length pf))
      by by apply address_iff_under_root.
    destruct (getNodePath_under d root _ _ Hpc Hua) as (pa'&Ea&_&Hra).
    destruct (getNodePath_under d root _ _ Hpc Huf) as (pf'&Ef&_&Hrf).
    rewrite Ha in Ea. rewrite Hf in Ef. injection Ea as <-. injection Ef as <-.
    done.
  - by intros r rest rest' ->.
Qed.

Lemma serialize_first_range_under_root_witness :
  parent_child fiveWords
  ∧ serialize fiveWords root
      (Some [mkRange thirdText 1 fourthText 3; mkRange root 0 root 1])
    = serialize fiveWords root (Some [mkRange thirdText 1 fourthText 3])
  ∧ serialize fiveWords firstParagraph (caret thirdText 1) = None.
Proof.
  split; [by apply parent_child_check_sound|].
  destruct (serialize_first_range_under_root fiveWords root
              (Some [mkRange thirdText 1 fourthText 3])
              (parent_child_check_sound fiveWords eq_refl)) as (_&_&Hfirst).
  split; [|reflexivity].
  exact (Hfirst (mkRange thirdText 1 fourthText 3) [] [mkRange root 0 root 1] eq_refl).
Defined.

Lemma tree_check_sound depth d :
  tree_check depth d = true →
  child_parent d ∧ children_nodup d ∧ ranked depth d.
Proof.
  unfold tree_check. rewrite forallb_forall. intros Hc.
  assert (Hnode : ∀ p nd, d !! p = Some nd →
            NoDup (childNodes nd)
            ∧ ∀ c, c ∈ childNodes nd → parentOf d c = Some p ∧ depth p < depth c).
  { intros p nd Hp.
    assert (Hin : In (p, nd) (map_to_list d))
      by by apply list_elem_of_In, elem_of_map_to_list.
    specialize (Hc (p, nd) Hin). simpl in Hc.
    apply andb_prop in Hc as [Hnd Hall].
    split; [by apply bool_decide_eq_true in Hnd|].
    intros c Hc. rewrite forallb_forall in Hall.
    specialize (Hall c). rewrite <- list_elem_of_In in Hall.
    destruct (andb_prop _ _ (Hall Hc)) as [H1 H2].
    split; by eapply bool_decide_eq_true. }
  split; [|split].
  - intros p c Hin. unfold childrenOf in Hin.
    destruct (d !! p) as [nd|] eqn:Hp; simpl in Hin; [|by inversion Hin].
    by apply (Hnode p nd Hp).
  - intros p. unfold childrenOf.
    destruct (d !! p) as [nd|] eqn:Hp; simpl; [|constructor].
    by apply (Hnode p nd Hp).
  - intros p c Hin. unfold childrenOf in Hin.
    destruct (d !! p) as [nd|] eqn:Hp; simpl in Hin; [|by inversion Hin].
    by apply (Hnode p nd Hp).
Qed.

Lemma at_index_Some {A} (l : list A) i x :
  at_index l i = Some x → (0 ≤ i)%Z ∧ l !! Z.to_nat i = Some x.
Proof. unfold at_index. by case_bool_decide. Qed.

Lemma indexOf_at_index (l : list positive) i x :
  NoDup l → at_index l i = Some x → indexOf l x = i.
Proof.
  intros Hnd [Hi Hl]%at_index_Some. unfold indexOf.
  assert (Hin : x ∈ l) by (apply list_elem_of_lookup; eauto).
  destruct (list_find_elem_of (λ y, y = x) l x Hin eq_refl) as [[j y] Hf].
  rewrite Hf. apply list_find_Some in Hf as (Hj&->&_).
  rewrite (NoDup_lookup l j (Z.to_nat i) x Hnd Hj Hl). lia.
Qed.

(** Going down from the root along an address: the node reached lies
    that many levels under the root and, unless the address is empty, is
    deeper than the root. *)
Lemma resolve_under depth d root path n :
  child_parent d → ranked depth d →
  getNodeFromPath_from d root path = Some n →
  under d root n (length path)
  ∧ depth root ≤ depth n ∧ (path ≠ [] → depth root < depth n).
Proof.
  intros Hcp Hr. revert n. induction path as [|i path IH] using rev_ind; intros n.
  - simpl. intros [= <-]. split; [apply under_root|]. split; [lia|done].
  - rewrite getNodeFromPath_from_app.
    destruct (getNodeFromPath_from d root path) as [m|] eqn:Hm; [|done].
    simpl. destruct (at_index (childrenOf d m) i) as [c|] eqn:Hi; [|done].
    intros [= <-]. destruct (IH m eq_refl) as (Hu&Hle&_).
    apply at_index_Some in Hi as [_ Hi].
    assert (Hin : c ∈ childrenOf d m) by (apply list_elem_of_lookup; eauto).
    pose proof (Hr m c Hin) as Hlt.
    rewrite length_app. simpl. rewrite Nat.add_1_r. split; [|lia].
    eapply under_step; [|by apply Hcp|done].
    intros ->. lia.
Qed.

Lemma getNodePath_loop_exact depth d root path n :
  child_parent d → children_nodup d → ranked depth d →
  getNodeFromPath_from d root path = Some n →
  ∀ fuel acc, length path < fuel →
    getNodePath_loop fuel d root n acc = Some (path ++ acc).
Proof.
  intros Hcp Hnd Hr. revert n.
  induction path as [|i path IH] using rev_ind; intros n Hres fuel acc Hf.
  - simpl in Hres. injection Hres as <-. destruct fuel; [simpl in Hf; lia|].
    simpl. by rewrite decide_True.
  - destruct (resolve_under depth d root _ n Hcp Hr Hres) as (_&_&Hlt).
    rewrite getNodeFromPath_from_app in Hres.
    destruct (getNodeFromPath_from d root path) as [m|] eqn:Hm; [|done].
    simpl in Hres.
    destruct (at_index (childrenOf d m) i) as [c|] eqn:Hi; [|done].
    injection Hres as <-.
    rewrite length_app in Hf. simpl in Hf.
    destruct fuel as [|fuel]; [lia|]. simpl.
    rewrite decide_False by (intros ->; specialize (Hlt ltac:(by destruct path)); lia).
    pose proof Hi as [_ Hi']%at_index_Some.
    assert (Hin : c ∈ childrenOf d m) by (apply list_elem_of_lookup; eauto).
    rewrite (Hcp m c Hin).
    rewrite (indexOf_at_index _ i c (Hnd m) Hi).
    rewrite (IH m eq_refl fuel (i :: acc)) by lia.
    by rewrite <- app_assoc.
Qed.

(** X12. In a well-formed tree, encoding undoes decoding: if an address
    resolves to a node, [getNodePath] of that node is this very address.
    So a node under the root has one address only: two addresses that
    resolve to the same node are equal. *)
Theorem node_has_one_address depth d root path n :
  child_parent d → children_nodup d → ranked depth d →
  getNodeFromPath d root path = Some n →
  getNodePath d root n = Some path
  ∧ ∀ path', getNodeFromPath d root path' = Some n → path' = path.
Proof.
  intros Hcp Hnd Hr Hres.
  assert (Hexact : ∀ p, getNodeFromPath d root p = Some n
                        → getNodePath d root n = Some p).
  { intros p Hp. unfold getNodePath.
    destruct (resolve_under depth d root p n Hcp Hr Hp) as (Hu&_).
    pose proof (under_depth_bound _ _ _ _ Hu).
    rewrite (getNodePath_loop_exact depth d root p n Hcp Hnd Hr Hp) by lia.
    by rewrite app_nil_r. }
  split; [by apply Hexact|].
  intros path' Hp'. apply Hexact in Hp'. rewrite (Hexact path Hres) in Hp'.
  congruence.
Qed.

Lemma node_has_one_address_witness :
  child_parent fiveWords ∧ children_nodup fiveWords ∧ ranked levelOf fiveWords
  ∧ getNodeFromPath fiveWords root [3; 0]%Z = Some fourthText
  ∧ getNodePath fiveWords root fourthText = Some [3; 0]%Z
  ∧ ∀ path', getNodeFromPath fiveWords root path' = Some fourthText
             → path' = [3; 0]%Z.
Proof.
  destruct (tree_check_sound levelOf fiveWords eq_refl) as (Hcp&Hnd&Hr).
  split; [exact Hcp|]. split; [exact Hnd|]. split; [exact Hr|].
  split; [reflexivity|].
  exact (node_has_one_address levelOf fiveWords root [3; 0]%Z fourthText
           Hcp Hnd Hr eq_refl).
Defined.

Lemma toUint32_small z : (0 ≤ z < 4294967296)%Z → toUint32 z = z.
Proof. intros H. unfold toUint32. by apply Z.mod_small. Qed.

(** X13. Capture, then restore. For a valid range of the selection whose
    end points lie under the root, in a document that was not changed in
    between, [deserialize] of what [serialize] returned makes this range
    the one range of the selection. *)
Theorem serialize_then_deserialize d root r rest ka kf :
  parent_child d →
  under d root (startContainer r) ka → under d root (endContainer r) kf →
  valid_range d root r →
  ∃ s, serialize d root (Some (r :: rest)) = Some s
       ∧ deserialize d root (Some (r :: rest)) s = Some [r].
Proof.
  intros Hpc Ha Hf (Hoa&Hof&Hma&Hmf&Hord).
  destruct (getNodePath_under d root _ ka Hpc Ha) as (pa&Epa&_&Hra).
  destruct (getNodePath_under d root _ kf Hpc Hf) as (pf&Epf&_&Hrf).
  exists (mkSerializedSelection pa (startOffset r) pf (endOffset r)).
  unfold serialize. rewrite Epa, Epf. split; [done|].
  unfold deserialize. simpl. rewrite Hra, Hrf.
  unfold rangeBetween. rewrite !toUint32_small by lia.
  rewrite !bool_decide_eq_true_2 by lia. rewrite Hord. by destruct r.
Qed.

Lemma serialize_then_deserialize_witness :
  let r := mkRange thirdText 1 fourthText 3 in
  parent_child fiveWords
  ∧ under fiveWords root (startContainer r) 2
  ∧ under fiveWords root (endContainer r) 2
  ∧ valid_range fiveWords root r
  ∧ ∃ s, serialize fiveWords root (Some [r; mkRange root 0 root 1]) = Some s
         ∧ deserialize fiveWords root (Some [r; mkRange root 0 root 1]) s
           = Some [r].
Proof.
  assert (Hu4 : under fiveWords root fourthText 2).
  { apply (under_step _ _ _ 5%positive); [done|reflexivity|].
    apply (under_step _ _ _ root); [done|reflexivity|]. apply under_root. }
  assert (Hv : valid_range fiveWords root (mkRange thirdText 1 fourthText 3)).
  { unfold valid_range. simpl. repeat split; try reflexivity; try lia;
      vm_compute; discriminate. }
  split; [by apply parent_child_check_sound|].
  split; [exact under_thirdText|]. split; [exact Hu4|]. split; [exact Hv|].
  apply (serialize_then_deserialize fiveWords root
           (mkRange thirdText 1 fourthText 3) [mkRange root 0 root 1] 2 2).
  - by apply parent_child_check_sound.
  - exact under_thirdText.
  - exact Hu4.
  - exact Hv.
Defined.


End SelectionMore.

(** * Properties of the event bus *)

Module BusFacts.
Import Bus.

Section Handlers.

Variable throws : nat → string → bool.

Lemma emitLoop_trace event payload snapshot :
  ∀ entries trace,
    (emitLoop throws event payload snapshot entries trace).2
    = trace ++ (snapshot ≫= callListener throws event payload).
Proof.
  induction snapshot as [|e snapshot IH]; intros entries trace; simpl.
  - by rewrite app_nil_r.
  - rewrite IH. unfold callListener at 2.
    destruct (throws (handler e) payload); simpl;
      by rewrite <- ?app_assoc.
Qed.

(** X15. [emit] calls every listener registered for the event, once, in
    the order of registration, and then every wildcard listener, in the
    order of registration. A listener that throws is reported on the
    console and delays nobody: the listeners after it are called all the
    same. Listeners of other events are not called. *)
Theorem emit_calls_all_in_order event payload b trace :
  (emit throws event payload (b, trace)).2
  = trace
    ++ (entriesOf event b ≫= callListener throws event payload)
    ++ (wildcardListeners b ≫= callWildcard throws event payload).
Proof.
  unfold emit, entriesOf. destruct (listeners b !! event) as [entries|]; simpl.
  - pose proof (emitLoop_trace event payload entries entries trace) as Ht.
    destruct (emitLoop throws event payload entries entries trace) as [es tr].
    simpl in *. rewrite Ht. by rewrite <- app_assoc.
  - done.
Qed.

Lemma filter_all {A} (P : A → Prop) `{∀ x, Decision (P x)} (l : list A) :
  Forall P l → filter P l = l.
Proof.
  induction 1 as [|x l Hx _ IH]; [done|].
  by rewrite filter_cons, decide_True, IH.
Qed.

Lemma filter_ext_in {A} (P Q : A → Prop)
    `{∀ x, Decision (P x)} `{∀ x, Decision (Q x)} (l : list A) :
  (∀ x, x ∈ l → P x ↔ Q x) → filter P l = filter Q l.
Proof.
  induction l as [|x l IH]; intros Hpq; [done|].
  rewrite !filter_cons.
  assert (P x ↔ Q x) as Hx by (apply Hpq; by left).
  rewrite IH by (intros y Hy; apply Hpq; by right).
  destruct (decide (P x)), (decide (Q x)); tauto.
Qed.

Lemma spliceFirst_cons p e l :
  spliceFirst p (e :: l) = if p e then l else e :: spliceFirst p l.
Proof.
  unfold spliceFirst. simpl. destruct (p e) eqn:Hp.
  - by rewrite decide_True.
  - rewrite decide_False by done.
    destruct (list_find (λ e0, p e0 = true) l) as [[i x]|]; done.
Qed.

Lemma spliceFirst_sublist p l : spliceFirst p l `sublist_of` l.
Proof.
  induction l as [|e l IH]; [done|]. rewrite spliceFirst_cons.
  destruct (p e); [by apply sublist_cons|by apply sublist_skip].
Qed.

Lemma spliceFirst_none p l :
  Forall (λ e, p e = false) l → spliceFirst p l = l.
Proof.
  induction 1 as [|e l He _ IH]; [done|].
  by rewrite spliceFirst_cons, He, IH.
Qed.

Lemma spliceFirst_length p l :
  length (spliceFirst p l)
  = length l - (if bool_decide (Exists (λ e, p e = true) l) then 1 else 0).
Proof.
  induction l as [|e l IH].
  - done.
  - rewrite spliceFirst_cons. destruct (p e) eqn:Hp.
    + rewrite bool_decide_eq_true_2 by (by left). simpl. lia.
    + simpl. rewrite IH. case_bool_decide as Hx.
      * rewrite bool_decide_eq_true_2 by (by right).
        destruct l; [by apply Exists_nil in Hx|simpl; lia].
      * rewrite bool_decide_eq_false_2; [lia|].
        intros [?|?]%Exists_cons; [congruence|done].
Qed.

(** With distinct entry objects, splicing out an entry by identity is
    filtering it out. *)
Lemma spliceFirst_by_id (l : list ListenerEntry) x :
  NoDup (entryId <$> l) →
  spliceFirst (λ e, bool_decide (entryId e = x)) l
  = filter (λ e, entryId e ≠ x) l.
Proof.
  induction l as [|e l IH]; intros Hnd; [done|].
  rewrite fmap_cons in Hnd. apply NoDup_cons in Hnd as [Hnin Hnd].
  rewrite spliceFirst_cons, filter_cons. case_bool_decide as He.
  - rewrite decide_False by (intros ?; done). subst x.
    symmetry. apply filter_all. apply Forall_forall. intros e' Hin Heq.
    apply Hnin. rewrite <- Heq. apply list_elem_of_fmap. by exists e'.
  - rewrite decide_True by done. by rewrite IH.
Qed.

Lemma emitLoop_entries event payload snapshot :
  ∀ entries trace,
    NoDup (entryId <$> entries) →
    (emitLoop throws event payload snapshot entries trace).1
    = filter (λ e, entryId e ∉ entryId <$> filter (λ e', once e' = true) snapshot)
             entries.
Proof.
  induction snapshot as [|s snapshot IH]; intros entries trace Hnd; simpl.
  - symmetry. apply filter_all. apply Forall_forall. intros e _ Hin.
    inversion Hin.
  - rewrite filter_cons. destruct (once s) eqn:Ho.
    + rewrite decide_True by done. rewrite IH.
      2:{ eapply sublist_NoDup; [done|]. apply fmap_sublist, spliceFirst_sublist. }
      rewrite spliceFirst_by_id by done. rewrite list_filter_filter.
      apply list_filter_iff. intros e. rewrite fmap_cons, not_elem_of_cons.
      tauto.
    + rewrite decide_False by done. by apply IH.
Qed.

Lemma emit_entries event payload b trace ev :
  entries_distinct b →
  entriesOf ev (emit throws event payload (b, trace)).1
  = if bool_decide (ev = event)
    then filter (λ e, once e = false) (entriesOf ev b)
    else entriesOf ev b.
Proof.
  intros Hd. unfold emit, entriesOf.
  destruct (listeners b !! event) as [entries|] eqn:Hl.
  - destruct (Hd event entries Hl) as (Hnd&_).
    pose proof (emitLoop_entries event payload entries entries trace Hnd) as He.
    destruct (emitLoop throws event payload entries entries trace) as [es tr].
    simpl in *. case_bool_decide as Hev.
    + subst ev. rewrite lookup_insert_eq, Hl. simpl. rewrite He.
      apply filter_ext_in. intros e Hin. split.
      * intros Hn. destruct (once e) eqn:Ho; [|done]. exfalso. apply Hn.
        apply list_elem_of_fmap. exists e. split; [done|].
        by apply list_elem_of_filter.
      * intros Ho (e'&Hid&[Ho' Hin']%list_elem_of_filter)%list_elem_of_fmap.
        assert (e = e'); [|congruence].
        apply list_elem_of_lookup in Hin as [i Hi].
        apply list_elem_of_lookup in Hin' as [j Hj].
        assert (i = j); [|congruence].
        eapply NoDup_lookup; [exact Hnd| |].
        -- by rewrite list_lookup_fmap, Hi.
        -- by rewrite list_lookup_fmap, Hj; simpl; rewrite Hid.
    + by rewrite lookup_insert_ne.
  - simpl. case_bool_decide as Hev; [|done]. subst ev. by rewrite Hl.
Qed.

Lemma sublist_entries_ok (n : nat) (es es' : list ListenerEntry) :
  es' `sublist_of` es →
  NoDup (entryId <$> es) ∧ Forall (λ e, entryId e < n) es →
  NoDup (entryId <$> es') ∧ Forall (λ e, entryId e < n) es'.
Proof.
  intros Hs [Hnd Hall]. split.
  - eapply sublist_NoDup; [done|]. by apply fmap_sublist.
  - apply Forall_forall. intros e He. rewrite Forall_forall in Hall.
    apply Hall. by eapply elem_of_sublist.
Qed.

Lemma emitLoop_sublist event payload snapshot :
  ∀ entries trace,
    (emitLoop throws event payload snapshot entries trace).1 `sublist_of` entries.
Proof.
  induction snapshot as [|s snapshot IH]; intros entries trace; simpl; [done|].
  destruct (once s); [|apply IH].
  etrans; [apply IH|apply spliceFirst_sublist].
Qed.

Lemma step_entries_distinct st o :
  entries_distinct st.1 → entries_distinct (step throws st o).1.
Proof.
  destruct st as [b trace]. intros Hd. destruct o; simpl.
  - intros ev es. unfold on, _addListener. simpl.
    destruct (decide (event = ev)) as [->|Hne].
    + rewrite lookup_insert_eq. intros [= <-].
      assert (Hold : NoDup (entryId <$> default [] (listeners b !! ev))
                     ∧ Forall (λ e, entryId e < nextEntry b)
                              (default [] (listeners b !! ev))).
      { destruct (listeners b !! ev) as [es|] eqn:Hl; simpl.
        - by apply (Hd ev).
        - split; constructor. }
      destruct Hold as [Hnd Hall]. split.
      * rewrite fmap_app. apply NoDup_app. split; [done|]. split; [|by apply NoDup_singleton].
        intros x (e&->&Hin)%list_elem_of_fmap Hx. simpl in Hx.
        apply list_elem_of_singleton in Hx.
        rewrite Forall_forall in Hall. specialize (Hall e Hin). lia.
      * apply Forall_app. split; [|by repeat constructor].
        eapply Forall_impl; [done|]. simpl. lia.
    + rewrite lookup_insert_ne by done. intros Hl.
      destruct (Hd ev es Hl) as [Hnd Hall]. split; [done|].
      eapply Forall_impl; [done|]. simpl. lia.
  - intros ev es. unfold once_, _addListener. simpl.
    destruct (decide (event = ev)) as [->|Hne].
    + rewrite lookup_insert_eq. intros [= <-].
      assert (Hold : NoDup (entryId <$> default [] (listeners b !! ev))
                     ∧ Forall (λ e, entryId e < nextEntry b)
                              (default [] (listeners b !! ev))).
      { destruct (listeners b !! ev) as [es|] eqn:Hl; simpl.
        - by apply (Hd ev).
        - split; constructor. }
      destruct Hold as [Hnd Hall]. split.
      * rewrite fmap_app. apply NoDup_app. split; [done|]. split; [|by apply NoDup_singleton].
        intros x (e&->&Hin)%list_elem_of_fmap Hx. simpl in Hx.
        apply list_elem_of_singleton in Hx.
        rewrite Forall_forall in Hall. specialize (Hall e Hin). lia.
      * apply Forall_app. split; [|by repeat constructor].
        eapply Forall_impl; [done|]. simpl. lia.
    + rewrite lookup_insert_ne by done. intros Hl.
      destruct (Hd ev es Hl) as [Hnd Hall]. split; [done|].
      eapply Forall_impl; [done|]. simpl. lia.
  - done.
  - unfold off. destruct (listeners b !! event) as [entries|] eqn:Hl; [|done].
    intros ev es. simpl.
    pose proof (spliceFirst_sublist (λ e, bool_decide (handler e = h)) entries) as Hs.
    destruct (spliceFirst (λ e, bool_decide (handler e = h)) entries) as [|e0 es0] eqn:Hsp.
    + destruct (decide (event = ev)) as [->|Hne].
      * by rewrite lookup_delete_eq.
      * rewrite lookup_delete_ne by done. apply Hd.
    + destruct (decide (event = ev)) as [->|Hne].
      * rewrite lookup_insert_eq. intros [= <-].
        eapply sublist_entries_ok; [done|]. by apply (Hd ev).
      * rewrite lookup_insert_ne by done. apply Hd.
  - unfold offAll. destruct event as [ev0|]; [case_bool_decide|].
    + intros ev es. simpl. by rewrite lookup_empty.
    + intros ev es. simpl. destruct (decide (ev0 = ev)) as [->|Hne].
      * by rewrite lookup_delete_eq.
      * rewrite lookup_delete_ne by done. apply Hd.
    + intros ev es. simpl. by rewrite lookup_empty.
  - unfold emit. destruct (listeners b !! event) as [entries|] eqn:Hl; [|done].
    pose proof (emitLoop_sublist event payload entries entries trace) as Hs.
    destruct (emitLoop throws event payload entries entries trace) as [es' tr].
    simpl in *. intros ev es. simpl. destruct (decide (event = ev)) as [->|Hne].
    + rewrite lookup_insert_eq. intros [= <-].
      eapply sublist_entries_ok; [done|]. by apply (Hd ev).
    + rewrite lookup_insert_ne by done. apply Hd.
Qed.

Lemma run_entries_distinct ops : entries_distinct (run throws ops).1.
Proof.
  unfold run.
  assert (Hgen : ∀ st, entries_distinct st.1 →
                       entries_distinct (foldl (step throws) st ops).1).
  { induction ops as [|o ops IH]; intros st Hd; [done|].
    simpl. apply IH. by apply step_entries_distinct. }
  apply Hgen. intros ev es. simpl. by rewrite lookup_empty.
Qed.

(** X16. A listener registered with [once] is delivered one event and
    no more. On any bus built by calls of its interface, after
    [emit(event)] the listeners of that event are the ones registered with
    [on], in their order, the [once] listeners being gone; listeners of
    other events and wildcard listeners are as before. A second [emit] of
    the event therefore calls the [on] listeners only. *)
Theorem once_listeners_leave_after_emit ops event payload :
  let st := run throws ops in
  let st' := emit throws event payload st in
  (∀ ev, entriesOf ev st'.1
         = if bool_decide (ev = event)
           then filter (λ e, once e = false) (entriesOf ev st.1)
           else entriesOf ev st.1)
  ∧ wildcardListeners st'.1 = wildcardListeners st.1
  ∧ ∀ payload',
      (emit throws event payload' st').2
      = st'.2
        ++ (filter (λ e, once e = false) (entriesOf event st.1)
              ≫= callListener throws event payload')
        ++ (wildcardListeners st.1 ≫= callWildcard throws event payload').
Proof.
  simpl. pose proof (run_entries_distinct ops) as Hd.
  destruct (run throws ops) as [b trace]. simpl in Hd.
  assert (He : ∀ ev, entriesOf ev (emit throws event payload (b, trace)).1
                     = if bool_decide (ev = event)
                       then filter (λ e, once e = false) (entriesOf ev b)
                       else entriesOf ev b)
    by (intros ev; by apply emit_entries).
  assert (Hw : wildcardListeners (emit throws event payload (b, trace)).1
               = wildcardListeners b).
  { unfold emit. destruct (listeners b !! event); [|done].
    by destruct (emitLoop throws event payload l l trace). }
  split; [done|]. split; [done|]. intros payload'.
  destruct (emit throws event payload (b, trace)) as [b' trace'] eqn:Hemit.
  cbn [fst snd] in *. rewrite emit_calls_all_in_order, He, Hw.
  by rewrite bool_decide_eq_true_2.
Qed.

Lemma entriesOf_off event h b ev :
  entriesOf ev (off event h b)
  = if bool_decide (ev = event)
    then spliceFirst (λ e, bool_decide (handler e = h)) (entriesOf ev b)
    else entriesOf ev b.
Proof.
  unfold off, entriesOf. destruct (listeners b !! event) as [entries|] eqn:Hl.
  - simpl. case_bool_decide as Hev.
    + subst ev. rewrite Hl. simpl.
      destruct (spliceFirst _ entries) as [|e0 es0].
      * by rewrite lookup_delete_eq.
      * by rewrite lookup_insert_eq.
    + destruct (spliceFirst _ entries) as [|e0 es0].
      * by rewrite lookup_delete_ne.
      * by rewrite lookup_insert_ne.
  - case_bool_decide as Hev; [|done]. subst ev. by rewrite Hl.
Qed.

Lemma entriesOf_on event h b ev :
  entriesOf ev (on event h b)
  = if bool_decide (ev = event)
    then entriesOf ev b ++ [mkEntry (nextEntry b) h false]
    else entriesOf ev b.
Proof.
  unfold on, _addListener, entriesOf; simpl. case_bool_decide as Hev.
  - subst ev. by rewrite lookup_insert_eq.
  - by rewrite lookup_insert_ne.
Qed.

Lemma listenerCount_entriesOf ev b : listenerCount ev b = length (entriesOf ev b).
Proof. unfold listenerCount, entriesOf. by destruct (listeners b !! ev). Qed.

Lemma registered_Exists h (es : list ListenerEntry) :
  h ∈ handler <$> es ↔ Exists (λ e, bool_decide (handler e = h) = true) es.
Proof.
  rewrite Exists_exists, list_elem_of_fmap. split.
  - intros (e&->&Hin). exists e. split; [done|]. by apply bool_decide_eq_true_2.
  - intros (e&Hin&He%bool_decide_eq_true). by exists e.
Qed.

Lemma spliceFirst_snoc p (es : list ListenerEntry) x :
  p x = true → Forall (λ e, p e = false) es → spliceFirst p (es ++ [x]) = es.
Proof.
  intros Hx. induction 1 as [|e es He _ IH]; simpl.
  - by rewrite spliceFirst_cons, Hx.
  - by rewrite spliceFirst_cons, He, IH.
Qed.

(** X17. [off(event, handler)] takes away one registration of the
    handler for the event, the oldest, and nothing else: the listeners of
    other events and the wildcard listeners stay, the count for the event
    drops by one if the handler was registered and stays the same if it
    was not (then nothing changes at all). Registering a handler and
    taking it off again gives back the counts, and when the handler had
    not been registered before, the very listeners of before. *)
Theorem off_removes_one_registration event h b :
  (∀ ev, entriesOf ev (off event h b)
         = if bool_decide (ev = event)
           then spliceFirst (λ e, bool_decide (handler e = h)) (entriesOf ev b)
           else entriesOf ev b)
  ∧ wildcardListeners (off event h b) = wildcardListeners b
  ∧ listenerCount event (off event h b)
    = listenerCount event b
      - (if bool_decide (h ∈ handler <$> entriesOf event b) then 1 else 0)
  ∧ (h ∉ handler <$> entriesOf event b →
     ∀ ev, entriesOf ev (off event h b) = entriesOf ev b)
  ∧ (∀ ev, listenerCount ev (off event h (on event h b)) = listenerCount ev b)
  ∧ (h ∉ handler <$> entriesOf event b →
     ∀ ev, entriesOf ev (off event h (on event h b)) = entriesOf ev b).
Proof.
  assert (Hnone : ∀ es : list ListenerEntry, h ∉ handler <$> es →
            Forall (λ e, bool_decide (handler e = h) = false) es).
  { intros es Hn. apply Forall_forall. intros e Hin.
    apply bool_decide_eq_false_2. intros Heq. apply Hn.
    apply list_elem_of_fmap. by exists e. }
  split; [intros ev; apply entriesOf_off|]. split.
  { unfold off. by destruct (listeners b !! event). }
  split; [|split; [|split]].
  - rewrite !listenerCount_entriesOf, entriesOf_off, bool_decide_eq_true_2 by done.
    rewrite spliceFirst_length.
    destruct (decide (h ∈ handler <$> entriesOf event b)) as [Hin|Hn].
    + rewrite !bool_decide_eq_true_2; [done|done|by apply registered_Exists].
    + rewrite !bool_decide_eq_false_2; [done|done|by rewrite <- registered_Exists].
  - intros Hn ev. rewrite entriesOf_off. case_bool_decide as Hev; [|done].
    subst ev. by apply spliceFirst_none, Hnone.
  - intros ev. rewrite !listenerCount_entriesOf, entriesOf_off, entriesOf_on.
    case_bool_decide as Hev; [|done]. rewrite spliceFirst_length.
    rewrite bool_decide_eq_true_2.
    + rewrite length_app. simpl. lia.
    + apply Exists_app. right. left. simpl. by apply bool_decide_eq_true_2.
  - intros Hn ev. rewrite entriesOf_off, entriesOf_on.
    case_bool_decide as Hev; [|done]. subst ev.
    apply spliceFirst_snoc; [by apply bool_decide_eq_true_2|by apply Hnone].
Qed.

(** X18. [offAll()] silences the bus: no event has a listener any more
    and an [emit] afterwards calls nobody and changes nothing. [offAll]
    with the name of an event removes the listeners of that event only;
    the wildcard listeners stay and are the only ones called when the
    event is emitted afterwards. The empty string as event name is taken
    for a missing argument. *)
Theorem offAll_silences event payload b trace :
  (∀ ev, listenerCount ev (offAll None b) = 0)
  ∧ emit throws event payload (offAll None b, trace) = (offAll None b, trace)
  ∧ (event ≠ "" →
     listenerCount event (offAll (Some event) b) = 0
     ∧ (∀ ev, ev ≠ event → entriesOf ev (offAll (Some event) b) = entriesOf ev b)
     ∧ wildcardListeners (offAll (Some event) b) = wildcardListeners b
     ∧ (emit throws event payload (offAll (Some event) b, trace)).2
       = trace ++ (wildcardListeners b ≫= callWildcard throws event payload))
  ∧ offAll (Some "") b = offAll None b.
Proof.
  split; [done|]. split.
  { unfold emit, offAll. simpl. rewrite lookup_empty. simpl.
    by rewrite app_nil_r. }
  split; [|done]. intros Hne.
  unfold offAll. rewrite bool_decide_eq_false_2 by done.
  split; [|split; [|split]].
  - unfold listenerCount. simpl. by rewrite lookup_delete_eq.
  - intros ev Hev. unfold entriesOf. simpl. by rewrite lookup_delete_ne.
  - done.
  - rewrite emit_calls_all_in_order. unfold entriesOf. simpl.
    by rewrite lookup_delete_eq.
Qed.

End Handlers.

(** A bus with a [once] and an [on] listener for [change], a listener
    for [focus] and a wildcard listener; handler [2] throws. *)
Lemma once_listeners_leave_after_emit_example :
  let throws := λ h (_ : string), bool_decide (h = 2) in
  let ops := [Once "change" 1; On "change" 2; On "focus" 3; OnAny 4;
              Emit "change" "a"; Emit "change" "b"] in
  (run throws ops).2
  = [Called 1 "a"; Called 2 "a"; ErrorLogged "change";
     CalledWildcard 4 "change" "a";
     Called 2 "b"; ErrorLogged "change"; CalledWildcard 4 "change" "b"].
Proof. reflexivity. Qed.

Lemma offAll_silences_witness :
  let throws := λ (_ : nat) (_ : string), false in
  let b := (run throws [Once "change" 1; On "change" 2; OnAny 4]).1 in
  "change" ≠ ""
  ∧ (emit throws "change" "x" (offAll (Some "change") b, [])).2
    = [CalledWildcard 4 "change" "x"]
  ∧ emit throws "change" "x" (offAll None b, []) = (offAll None b, []).
Proof.
  split; [discriminate|].
  destruct (offAll_silences (λ _ _, false) "change" "x"
              (run (λ _ _, false) [Once "change" 1; On "change" 2; OnAny 4]).1 [])
    as (_&Hall&Hone&_).
  split; [|exact Hall].
  destruct (Hone ltac:(discriminate)) as (_&_&_&->). reflexivity.
Defined.

End BusFacts.

(** * Properties of the utilities *)

Module UtilsFacts.
Import Stdlib.Strings.Ascii Utils.

Lemma append_cons x (a b : string) : String x a +:+ b = String x (a +:+ b).
Proof. reflexivity. Qed.

Lemma append_assoc (a b c : string) : (a +:+ b) +:+ c = a +:+ (b +:+ c).
Proof.
  induction a as [|x a IH]; [done|]. by rewrite !append_cons, IH.
Qed.

Lemma replaceAll_app c r a b :
  replaceAll c r (a +:+ b) = replaceAll c r a +:+ replaceAll c r b.
Proof.
  induction a as [|x a IH]; [done|]. rewrite append_cons. simpl.
  destruct (Ascii.eqb x c); rewrite IH.
  - by rewrite append_assoc.
  - by rewrite append_cons.
Qed.

Lemma escapeHTML_app a b : escapeHTML (a +:+ b) = escapeHTML a +:+ escapeHTML b.
Proof. unfold escapeHTML. by rewrite !replaceAll_app. Qed.

Lemma escapeHTML_char x : escapeHTML (String x EmptyString) = escapeChar x.
Proof.
  unfold escapeHTML, escapeChar.
  destruct (Ascii.eqb_spec x amp) as [->|Hamp]; [reflexivity|].
  destruct (Ascii.eqb_spec x lt) as [->|Hlt]; [reflexivity|].
  destruct (Ascii.eqb_spec x gt) as [->|Hgt]; [reflexivity|].
  destruct (Ascii.eqb_spec x quot) as [->|Hquot]; [reflexivity|].
  destruct (Ascii.eqb_spec x apos) as [->|Hapos]; [reflexivity|].
  apply Ascii.eqb_neq in Hamp, Hlt, Hgt, Hquot, Hapos.
  cbn [replaceAll]. rewrite Hamp. cbn [replaceAll]. rewrite Hlt.
  cbn [replaceAll]. rewrite Hgt. cbn [replaceAll]. rewrite Hquot.
  cbn [replaceAll]. by rewrite Hapos.
Qed.

Lemma escapeHTML_each s : escapeHTML s = escapeEach s.
Proof.
  induction s as [|x s IH]; [done|].
  change (String x s) with (String x EmptyString +:+ s).
  rewrite escapeHTML_app, escapeHTML_char, IH. done.
Qed.

Lemma occurs_app c a b : occurs c (a +:+ b) = occurs c a || occurs c b.
Proof.
  induction a as [|x a IH]; [done|]. rewrite append_cons. simpl.
  by rewrite IH, orb_assoc.
Qed.

Lemma escapeChar_safe x c :
  c = lt ∨ c = gt ∨ c = quot ∨ c = apos → occurs c (escapeChar x) = false.
Proof.
  unfold escapeChar.
  destruct (Ascii.eqb_spec x amp); [by intros [->|[->|[->| ->]]]|].
  destruct (Ascii.eqb_spec x lt); [by intros [->|[->|[->| ->]]]|].
  destruct (Ascii.eqb_spec x gt); [by intros [->|[->|[->| ->]]]|].
  destruct (Ascii.eqb_spec x quot); [by intros [->|[->|[->| ->]]]|].
  destruct (Ascii.eqb_spec x apos); [by intros [->|[->|[->| ->]]]|].
  simpl. rewrite orb_false_r.
  intros [->|[->|[->| ->]]]; by apply Ascii.eqb_neq.
Qed.

(** X19. [escapeHTML] escapes every character exactly once: the five
    replacements one after the other give the same string as one pass
    that puts the entity in place of each special character, so an
    ampersand that belongs to an entity just produced is not escaped
    again. Consequently escaping distributes over concatenation, and the
    result contains none of the characters [<], [>], double quote and
    apostrophe. *)
Theorem escapeHTML_single_pass s :
  escapeHTML s = escapeEach s
  ∧ (∀ t, escapeHTML (s +:+ t) = escapeHTML s +:+ escapeHTML t)
  ∧ occurs lt (escapeHTML s) = false ∧ occurs gt (escapeHTML s) = false
  ∧ occurs quot (escapeHTML s) = false ∧ occurs apos (escapeHTML s) = false.
Proof.
  split; [apply escapeHTML_each|]. split; [intros t; apply escapeHTML_app|].
  rewrite escapeHTML_each.
  assert (Hsafe : ∀ c, c = lt ∨ c = gt ∨ c = quot ∨ c = apos →
                       occurs c (escapeEach s) = false).
  { intros c Hc. induction s as [|x s IH]; [done|]. cbn [escapeEach].
    by rewrite occurs_app, escapeChar_safe, IH. }
  repeat split; apply Hsafe; auto.
Qed.

Lemma escapeChar_nonempty x : escapeChar x ≠ EmptyString.
Proof.
  unfold escapeChar.
  repeat (match goal with |- context [Ascii.eqb ?a ?b] =>
            destruct (Ascii.eqb a b) end); done.
Qed.

Lemma escapeChar_cases x :
  (x = amp ∧ escapeChar x = "&amp;") ∨ (x = lt ∧ escapeChar x = "&lt;")
  ∨ (x = gt ∧ escapeChar x = "&gt;") ∨ (x = quot ∧ escapeChar x = "&quot;")
  ∨ (x = apos ∧ escapeChar x = "&#39;")
  ∨ (x ≠ amp ∧ escapeChar x = String x EmptyString).
Proof.
  unfold escapeChar.
  destruct (Ascii.eqb_spec x amp); [by left|].
  destruct (Ascii.eqb_spec x lt); [by right; left|].
  destruct (Ascii.eqb_spec x gt); [by right; right; left|].
  destruct (Ascii.eqb_spec x quot); [by right; right; right; left|].
  destruct (Ascii.eqb_spec x apos); [by right; right; right; right; left|].
  by right; right; right; right; right.
Qed.

Lemma escapeEach_inj a : ∀ b, escapeEach a = escapeEach b → a = b.
Proof.
  induction a as [|x a IH]; intros [|y b] H; cbn [escapeEach] in H.
  - done.
  - exfalso. destruct (escapeChar y) eqn:E; [by apply escapeChar_nonempty in E|].
    rewrite append_cons in H. done.
  - exfalso. destruct (escapeChar x) eqn:E; [by apply escapeChar_nonempty in E|].
    rewrite append_cons in H. done.
  - destruct (escapeChar_cases x) as [[-> Ex]|[[-> Ex]|[[-> Ex]|[[-> Ex]|[[-> Ex]|[Hx Ex]]]]]];
    destruct (escapeChar_cases y) as [[-> Ey]|[[-> Ey]|[[-> Ey]|[[-> Ey]|[[-> Ey]|[Hy Ey]]]]]];
    rewrite ?Ex, ?Ey in H; rewrite ?append_cons in H;
    change (EmptyString +:+ ?s) with s in H;
    try discriminate H;
    try (injection H as H; f_equal; by apply IH);
    try (injection H as Hc _; unfold amp in *; congruence).
    injection H as -> H. f_equal. by apply IH.
Qed.

(** X20. [escapeHTML] loses nothing: two strings with the same escaped
    form are the same string. *)
Theorem escapeHTML_injective a b : escapeHTML a = escapeHTML b → a = b.
Proof. rewrite !escapeHTML_each. apply escapeEach_inj. Qed.

Lemma escapeHTML_injective_witness :
  escapeHTML "a<b" = escapeHTML "a<b" ∧ escapeHTML "a<b" = "a&lt;b".
Proof.
  split; [|reflexivity].
  apply (f_equal escapeHTML (escapeHTML_injective "a<b" "a<b" eq_refl)).
Defined.

Section ThrottleFacts.

Context {A : Type}.

Lemma throttledRun_sublist ms (calls : list (Z * A)) :
  ∀ lastCall, throttledRun ms calls lastCall `sublist_of` calls.
Proof.
  induction calls as [|[now args] calls IH]; intros lastCall; simpl; [done|].
  unfold throttled. case_bool_decide.
  - apply sublist_skip, IH.
  - apply sublist_cons, IH.
Qed.

Lemma throttledRun_spaced ms (calls : list (Z * A)) :
  ∀ lastCall, spaced ms lastCall (throttledRun ms calls lastCall).*1.
Proof.
  induction calls as [|[now args] calls IH]; intros lastCall; simpl; [done|].
  unfold throttled. case_bool_decide; simpl; [|apply IH].
  split; [lia|apply IH].
Qed.

Lemma spaced_weaken (from from' : Z) (times : list Z) :
  (from' ≤ from)%Z → spaced 0 from times → spaced 0 from' times.
Proof. destruct times as [|t times]; simpl; [done|]. intros ? [? ?]. split; [lia|done]. Qed.

Lemma throttledRun_runs_spaced_call ms (pre post : list (Z * A)) tp ap t a :
  ∀ lastCall,
    spaced 0 lastCall (pre ++ (tp, ap) :: (t, a) :: post).*1 →
    (ms ≤ t - tp)%Z →
    (t, a) ∈ throttledRun ms (pre ++ (tp, ap) :: (t, a) :: post) lastCall.
Proof.
  induction pre as [|[tc ac] pre IH]; intros lastCall Hmono Hgap.
  - simpl in *. destruct Hmono as (H1&H2&_).
    assert (Hrun : ∀ l, (l ≤ tp)%Z →
              (t, a) ∈ throttledRun ms ((t, a) :: post) l).
    { intros l Hl. simpl. unfold throttled.
      rewrite bool_decide_eq_true_2 by lia. by left. }
    unfold throttled at 1. case_bool_decide.
    + right. apply Hrun. lia.
    + apply Hrun. lia.
  - simpl in *. destruct Hmono as (H1&H2).
    unfold throttled. case_bool_decide.
    + right. by apply IH.
    + apply IH; [|done]. eapply spaced_weaken; [|done]. lia.
Qed.

(** X21. The closure made by [throttle(fn, ms)] passes on a subsequence
    of the calls it receives, with their arguments; the calls it passes on
    are at least [ms] apart from one another, the first of them at least
    [ms] after time [0], where [lastCall] starts. When the clock does not
    run backwards, a call that comes at least [ms] after the call before
    it is passed on. *)
Theorem throttle_rate_limit ms (calls : list (Z * A)) :
  let ran := throttledRun ms calls 0 in
  ran `sublist_of` calls
  ∧ spaced ms 0 ran.*1
  ∧ (spaced 0 0 calls.*1 →
     ∀ pre post tp ap t a,
       calls = pre ++ (tp, ap) :: (t, a) :: post → (ms ≤ t - tp)%Z →
       (t, a) ∈ ran).
Proof.
  simpl. split; [apply throttledRun_sublist|].
  split; [apply throttledRun_spaced|].
  intros Hmono pre post tp ap t a -> Hgap.
  by apply throttledRun_runs_spaced_call.
Qed.

End ThrottleFacts.

Lemma throttle_rate_limit_witness :
  let calls := [(1000, "a"); (1040, "b"); (1100, "c"); (1250, "d")]%Z in
  throttledRun 100 calls 0 = [(1000, "a"); (1100, "c"); (1250, "d")]%Z
  ∧ spaced 0 0 calls.*1
  ∧ (1250, "d")%Z ∈ throttledRun 100 calls 0.
Proof.
  split; [reflexivity|].
  assert (Hm : spaced 0 0 [(1000, "a"); (1040, "b"); (1100, "c"); (1250, "d")]%Z.*1)
    by (simpl; lia).
  split; [exact Hm|].
  destruct (throttle_rate_limit 100
              [(1000, "a"); (1040, "b"); (1100, "c"); (1250, "d")]%Z) as (_&_&Hlive).
  apply (Hlive Hm [(1000, "a"); (1040, "b")]%Z [] 1100%Z "c" 1250%Z "d" eq_refl).
  lia.
Defined.

Section DebounceFacts.

Context {A : Type}.






End DebounceFacts.

End UtilsFacts.
